(** * randomFRC: the streaming pipeline orchestrator

    A shallow embedding of [src/streamer.py] (encoder selection, stderr
    classification, the command lines, one pipeline run and how its
    children are stopped), of [src/picker.py] (how the pool is built and
    handed out), of the control loop and the cancellable sleep of
    [src/main.py], of [validate_config] and [_resolve_env_vars] from
    [src/config.py] and of [TBAClient._get] and
    [extract_videos_from_matches] from [src/tba.py], with the properties of
    the specification and further properties of the code stated over it.

    Conventions.
    - Python [str] is [string]; [.lower()] folds the letters A-Z, which is
      what it does on the ASCII text the phrase tables are written in.
    - Python [int] is [Z]; the [float] durations of the configuration and the
      readings of [time.monotonic()] are rationals ([Q]): the code only
      passes them on or compares them.
    - Everything the program does not decide itself (process creation, exit
      codes, captured stderr, signal delivery, the TBA service, the clock,
      [random.shuffle]) is read from a [World], one entry per call. *)

From Stdlib Require Import ZArith QArith String Ascii List Bool Lia.
From Stdlib Require Import Qminmax Qround Lqa.
Import ListNotations.

Local Open Scope string_scope.
Local Open Scope Z_scope.

(* ================================================================== *)
(** ** Python strings *)

Module PyStr.

(** [c.lower()] for one character. *)
Definition lower_ascii (c : ascii) : ascii :=
  let n := N_of_ascii c in
  if ((65 <=? n) && (n <=? 90))%N then ascii_of_N (n + 32) else c.

(** [s.lower()] *)
Fixpoint lower (s : string) : string :=
  match s with
  | EmptyString => EmptyString
  | String c r => String (lower_ascii c) (lower r)
  end.

(** [t.startswith(p)] *)
Fixpoint startswith (p t : string) : bool :=
  match p, t with
  | EmptyString, _ => true
  | String _ _, EmptyString => false
  | String a p', String b t' => Ascii.eqb a b && startswith p' t'
  end.

(** [p in t] on strings: [p] occurs in [t] as a contiguous run. *)
Fixpoint str_in (p t : string) : bool :=
  startswith p t ||
  match t with
  | EmptyString => false
  | String _ t' => str_in p t'
  end.

(** [sep.join(l)] *)
Fixpoint join (sep : string) (l : list string) : string :=
  match l with
  | [] => EmptyString
  | [x] => x
  | x :: r => x ++ sep ++ join sep r
  end.

(** ["\n"] *)
Definition nl : string := String (ascii_of_N 10) EmptyString.

(** [any(phrase in text for phrase in phrases)] *)
Fixpoint any_in (phrases : list string) (text : string) : bool :=
  match phrases with
  | [] => false
  | p :: r => if str_in p text then true else any_in r text
  end.

(** The meaning of [p in t]. *)
Definition occurs (p t : string) : Prop :=
  exists pre post, t = pre ++ p ++ post.

End PyStr.

(* ================================================================== *)
(** ** streamer.py: results and the stderr classifier *)

Inductive StreamResult :=
| SUCCESS
| VIDEO_UNAVAILABLE
| DOWNLOAD_ERROR
| ENCODE_ERROR
| RTMP_ERROR
| INTERRUPTED.

Definition StreamResult_eqb (a b : StreamResult) : bool :=
  match a, b with
  | SUCCESS, SUCCESS | VIDEO_UNAVAILABLE, VIDEO_UNAVAILABLE
  | DOWNLOAD_ERROR, DOWNLOAD_ERROR | ENCODE_ERROR, ENCODE_ERROR
  | RTMP_ERROR, RTMP_ERROR | INTERRUPTED, INTERRUPTED => true
  | _, _ => false
  end.

(** The four phrase tables of [_classify_error], in source order. *)
Definition unavailable_phrases : list string :=
  [ "video unavailable"; "private video"; "removed"; "account terminated";
    "this video is not available"; "sign in to confirm your age";
    "join this channel to get access" ].

Definition download_phrases : list string :=
  [ "error"; "unable to download"; "http error"; "urlopen error" ].

Definition rtmp_phrases : list string :=
  [ "connection refused"; "connection reset"; "broken pipe";
    "i/o error"; "rtmp"; "failed to connect" ].

Definition encode_phrases : list string :=
  [ "error"; "invalid"; "codec not found"; "encoder" ].

Definition _classify_error (ytdlp_stderr ffmpeg_stderr : list string)
  : StreamResult :=
  let ytdlp_text := PyStr.lower (PyStr.join PyStr.nl ytdlp_stderr) in
  let ffmpeg_text := PyStr.lower (PyStr.join PyStr.nl ffmpeg_stderr) in
  if PyStr.any_in unavailable_phrases ytdlp_text then VIDEO_UNAVAILABLE
  else if PyStr.any_in download_phrases ytdlp_text then DOWNLOAD_ERROR
  else if PyStr.any_in rtmp_phrases ffmpeg_text then RTMP_ERROR
  else if PyStr.any_in encode_phrases ffmpeg_text then ENCODE_ERROR
  else DOWNLOAD_ERROR.

(** A buffer contains a phrase of a table: the phrase occurs in the
    lower-cased, newline-joined text of the buffer. *)
Definition buffer_has (phrases : list string) (buffer : list string) : Prop :=
  exists p, In p phrases /\
            PyStr.occurs p (PyStr.lower (PyStr.join PyStr.nl buffer)).

(* ================================================================== *)
(** ** The environment *)

(** The two child processes of a pipeline run. *)
Inductive Proc := Ytdlp | Ffmpeg.

(** tba.py, [MatchVideo]. *)
Record MatchVideo := {
  youtube_id : string;
  match_key : string;
  comp_level : string;
  event_key : string;
  year : Z;
  description : string;
}.

(** The argument of [Application._sleep]: an [int] or a [float]. *)
Inductive Seconds :=
| IntSec (n : Z)
| FloatSec (q : Q).

(** Where the SIGTERM/SIGINT handler runs relative to a pipeline run that
    got past its entry test: not at all, inside the [try] block (before the
    [_interrupted] tests that follow it), or after the last such test. *)
Inductive Signal := NoSignal | SigDuring | SigLate.

Definition Signal_eqb (a b : Signal) : bool :=
  match a, b with
  | NoSignal, NoSignal | SigDuring, SigDuring | SigLate, SigLate => true
  | _, _ => false
  end.

(** What one pipeline run meets: whether each [subprocess.Popen] succeeds,
    the return codes, the stderr lines the two reader threads collected, and
    the delivery of a shutdown signal. *)
Record RunEnv := {
  ytdlp_starts : bool;
  ffmpeg_starts : bool;
  ytdlp_rc : Z;
  ffmpeg_rc : Z;
  ytdlp_stderr_text : list string;
  ffmpeg_stderr_lines : list string;
  run_signal : Signal;
}.

Record World := {
  (** [shutil.which("ffmpeg")] *)
  which_ffmpeg : option string;
  (** stdout of [ffmpeg -hide_banner -encoders]; [None]: [subprocess.run]
      raised (a timeout included) *)
  ffmpeg_encoders : option string;
  (** the k-th pipeline run that got past its entry test *)
  pipeline : nat -> RunEnv;
  (** a shutdown signal arrives during the k-th [_sleep] entered while
      running *)
  signal_in_sleep : nat -> bool;
  (** the list [videos] the k-th [build_pool] arrives at after its TBA
      queries, filters, de-duplication and shuffle; [None]: a TBA request
      raised out of [_resolve_events] *)
  tba_pool : nat -> option (list MatchVideo);
  (** the k-th reading of [time.monotonic()] by the picker *)
  monotonic : nat -> Q;
  (** the k-th [random.shuffle] of the pool by [next_video] *)
  shuffle : nat -> list MatchVideo -> list MatchVideo;
}.

(** What the program does to its environment, in order. *)
Inductive Event :=
| EvWhich                                   (* shutil.which("ffmpeg") *)
| EvProbe                                   (* ffmpeg -encoders *)
| EvPopen (p : Proc) (started : bool)       (* subprocess.Popen *)
| EvSleep (s : Seconds)                     (* Application._sleep(s) *)
| EvNextVideo                               (* picker.next_video() *)
| EvBuildPool                               (* picker.build_pool() *)
| EvStreamed (v : MatchVideo) (r : StreamResult). (* stream_video(v) gave r *)

(* ================================================================== *)
(** ** streamer.py: [_detect_hw_encoder] *)

Definition Encoder : Type := string * list string.

Definition libx264 : Encoder := ("libx264", []).

(** [x in (a, b)] on strings *)
Definition in2 (x a b : string) : bool := String.eqb x a || String.eqb x b.

Definition candidates_for (preference : string)
  : list (string * string * list string) :=
  (if in2 preference "nvenc" "auto"
   then [("nvenc", "h264_nvenc", ["-preset"; "p4"])] else []) ++
  (if in2 preference "videotoolbox" "auto"
   then [("videotoolbox", "h264_videotoolbox", [])] else []) ++
  (if in2 preference "vaapi" "auto"
   then [("vaapi", "h264_vaapi", [])] else []).

(** The [for label, encoder, extra_args in candidates] loop. *)
Fixpoint first_available (candidates : list (string * string * list string))
  (available : string) : option Encoder :=
  match candidates with
  | [] => None
  | (_, encoder, extra_args) :: rest =>
      if PyStr.str_in encoder available then Some (encoder, extra_args)
      else first_available rest available
  end.

Definition _detect_hw_encoder (w : World) (preference : string)
  : Encoder * list Event :=
  if String.eqb preference "none" then (libx264, [])
  else
    let candidates := candidates_for preference in
    match which_ffmpeg w with
    | None => (libx264, [EvWhich])
    | Some ffmpeg_path =>
        if String.eqb ffmpeg_path "" then (libx264, [EvWhich])
        else
          match ffmpeg_encoders w with
          | None => (libx264, [EvWhich; EvProbe])
          | Some available =>
              match first_available candidates available with
              | Some found => (found, [EvWhich; EvProbe])
              | None => (libx264, [EvWhich; EvProbe])
              end
          end
    end.

(* ================================================================== *)
(** ** config.py *)

(** The fields of [TBAConfig] and [StreamConfig] that the picker and the
    control loop read; the fields that only shape the two argument lists
    (URLs, bitrates, preset, format) are left out with the argument lists. *)
Record TBAConfig := {
  cache_ttl : Z;
}.

Record StreamConfig := {
  hw_accel : string;
  max_retries_per_video : Z;
  retry_delay : Q;
  error_cooldown : Q;
}.

Record AppConfig := {
  tba : TBAConfig;
  stream : StreamConfig;
}.

(** The defaults of the dataclasses. *)
Definition default_config : AppConfig :=
  {| tba := {| cache_ttl := 3600 |};
     stream := {| hw_accel := "auto";
                  max_retries_per_video := 2;
                  retry_delay := 5;
                  error_cooldown := 10 |} |}.

(* ================================================================== *)
(** ** Program state *)

(** [VideoPicker] *)
Record VideoPicker := {
  _pool : list MatchVideo;
  _index : nat;
  _pool_built_at : Q;
}.

(** [VideoStreamer] *)
Record VideoStreamer := {
  _encoder : string;
  _encoder_args : list string;
  _interrupted : bool;
  _current_procs : list Proc;
}.

(** How many entries of each [World] sequence have been read. *)
Record Cursor := {
  runs : nat;
  sleeps : nat;
  builds : nat;
  clock_reads : nat;
  shuffles : nat;
}.

(** [Application], with the cursor into the environment. *)
Record Application := {
  _picker : VideoPicker;
  _streamer : VideoStreamer;
  _running : bool;
  _consecutive_errors : Z;
  cursor : Cursor;
}.

Definition set_picker (p : VideoPicker) (a : Application) : Application :=
  {| _picker := p; _streamer := _streamer a; _running := _running a;
     _consecutive_errors := _consecutive_errors a; cursor := cursor a |}.

Definition set_streamer (s : VideoStreamer) (a : Application) : Application :=
  {| _picker := _picker a; _streamer := s; _running := _running a;
     _consecutive_errors := _consecutive_errors a; cursor := cursor a |}.

Definition set_running (b : bool) (a : Application) : Application :=
  {| _picker := _picker a; _streamer := _streamer a; _running := b;
     _consecutive_errors := _consecutive_errors a; cursor := cursor a |}.

Definition set_consecutive_errors (n : Z) (a : Application) : Application :=
  {| _picker := _picker a; _streamer := _streamer a; _running := _running a;
     _consecutive_errors := n; cursor := cursor a |}.

Definition set_cursor (c : Cursor) (a : Application) : Application :=
  {| _picker := _picker a; _streamer := _streamer a; _running := _running a;
     _consecutive_errors := _consecutive_errors a; cursor := c |}.

Definition set_interrupted (b : bool) (s : VideoStreamer) : VideoStreamer :=
  {| _encoder := _encoder s; _encoder_args := _encoder_args s;
     _interrupted := b; _current_procs := _current_procs s |}.

Definition set_current_procs (l : list Proc) (s : VideoStreamer)
  : VideoStreamer :=
  {| _encoder := _encoder s; _encoder_args := _encoder_args s;
     _interrupted := _interrupted s; _current_procs := l |}.

Definition next_run (c : Cursor) : Cursor :=
  {| runs := S (runs c); sleeps := sleeps c; builds := builds c;
     clock_reads := clock_reads c; shuffles := shuffles c |}.

Definition next_sleep (c : Cursor) : Cursor :=
  {| runs := runs c; sleeps := S (sleeps c); builds := builds c;
     clock_reads := clock_reads c; shuffles := shuffles c |}.

Definition next_build (c : Cursor) : Cursor :=
  {| runs := runs c; sleeps := sleeps c; builds := S (builds c);
     clock_reads := clock_reads c; shuffles := shuffles c |}.

Definition next_clock_read (c : Cursor) : Cursor :=
  {| runs := runs c; sleeps := sleeps c; builds := builds c;
     clock_reads := S (clock_reads c); shuffles := shuffles c |}.

Definition next_shuffle (c : Cursor) : Cursor :=
  {| runs := runs c; sleeps := sleeps c; builds := builds c;
     clock_reads := clock_reads c; shuffles := S (shuffles c) |}.

(* ================================================================== *)
(** ** Computations: state, raised exceptions, emitted events *)

Inductive Exn :=
| SystemExit (code : Z)        (* sys.exit(code); not an [Exception] *)
| PyException (name : string). (* any subclass of [Exception] *)

Inductive Res (A : Type) :=
| Val (a : A)       (* returned *)
| Raised (e : Exn)  (* raised, not caught so far *)
| Fuel.             (* still running when the step budget ran out *)

Arguments Val {A} a.
Arguments Raised {A} e.
Arguments Fuel {A}.

Definition M (A : Type) : Type := Application -> Res A * Application * list Event.

Definition ret {A} (x : A) : M A := fun a => (Val x, a, []).

Definition bind {A B} (m : M A) (k : A -> M B) : M B :=
  fun a =>
    match m a with
    | (Val x, a1, t1) =>
        match k x a1 with
        | (r, a2, t2) => (r, a2, (t1 ++ t2)%list)
        end
    | (Raised e, a1, t1) => (Raised e, a1, t1)
    | (Fuel, a1, t1) => (Fuel, a1, t1)
    end.

Notation "x <- m ;; k" := (bind m (fun x => k))
  (at level 61, m at next level, right associativity).
Notation "m ;; k" := (bind m (fun _ => k))
  (at level 61, right associativity).

Definition raise {A} (e : Exn) : M A := fun a => (Raised e, a, []).
Definition emit (e : Event) : M unit := fun a => (Val tt, a, [e]).
Definition get : M Application := fun a => (Val a, a, []).
Definition modify (f : Application -> Application) : M unit :=
  fun a => (Val tt, f a, []).

(** [try: m  except Exception: handler] *)
Definition try_except {A} (m : M A) (handler : M A) : M A :=
  fun a =>
    match m a with
    | (Raised (PyException _), a1, t1) =>
        match handler a1 with
        | (r, a2, t2) => (r, a2, (t1 ++ t2)%list)
        end
    | other => other
    end.

(** The exit status of the process once [run] is over: 0 when it returns,
    the code of [sys.exit], 1 for an exception nobody caught. *)
Definition exit_status {A} (r : Res A) : option Z :=
  match r with
  | Val _ => Some 0
  | Raised (SystemExit code) => Some code
  | Raised (PyException _) => Some 1
  | Fuel => None
  end.

Definition out_of_fuel {A} : M A := fun a => (Fuel, a, []).

(** What a TBA request that fails raises ([requests] and
    [raise_for_status]). *)
Definition tba_error : Exn := PyException "requests.RequestException".

Section Program.

Variable W : World.
Variable config : AppConfig.

(* ================================================================== *)
(** ** streamer.py: [VideoStreamer] *)

(** [_kill_current]: the signals and waits act on the children; what the
    program keeps of it is the cleared list. *)
Definition _kill_current (s : VideoStreamer) : VideoStreamer :=
  set_current_procs [] s.

(** [interrupt] *)
Definition interrupt (s : VideoStreamer) : VideoStreamer :=
  _kill_current (set_interrupted true s).

(** main.py, [_handle_signal]: the handler of SIGTERM and SIGINT. *)
Definition _handle_signal (a : Application) : Application :=
  let a := set_running false a in
  set_streamer (interrupt (_streamer a)) a.

(** The handler runs at point [at_] of the run, if the world says so. *)
Definition deliver (at_ : Signal) (env : RunEnv) (a : Application)
  : Application :=
  if Signal_eqb (run_signal env) at_ then _handle_signal a else a.

Definition stream_video (video : MatchVideo) : M StreamResult :=
  fun a =>
    if _interrupted (_streamer a) then (Val INTERRUPTED, a, [])
    else
      let env := pipeline W (runs (cursor a)) in
      let a := set_cursor (next_run (cursor a)) a in
      if ytdlp_starts env && ffmpeg_starts env then
        (* both Popen calls returned *)
        let events := [EvPopen Ytdlp true; EvPopen Ffmpeg true] in
        let a := set_streamer
                   (set_current_procs [Ytdlp; Ffmpeg] (_streamer a)) a in
        (* ffmpeg_proc.wait(); ytdlp_proc.wait(); t1.join; t2.join *)
        let a := deliver SigDuring env a in
        (* finally: self._current_procs.clear() *)
        let a := set_streamer (set_current_procs [] (_streamer a)) a in
        if _interrupted (_streamer a) then (Val INTERRUPTED, a, events)
        else
          let result :=
            if (ytdlp_rc env =? 0) && (ffmpeg_rc env =? 0) then SUCCESS
            else _classify_error (ytdlp_stderr_text env)
                                 (ffmpeg_stderr_lines env) in
          (Val result, deliver SigLate env a, events)
      else
        (* one Popen raised: except Exception *)
        let events :=
          if ytdlp_starts env
          then [EvPopen Ytdlp true; EvPopen Ffmpeg false]
          else [EvPopen Ytdlp false] in
        let a := deliver SigDuring env a in
        let a := set_streamer (_kill_current (_streamer a)) a in
        let result :=
          if _interrupted (_streamer a) then INTERRUPTED
          else DOWNLOAD_ERROR in
        (* finally: self._current_procs.clear() *)
        let a := set_streamer (set_current_procs [] (_streamer a)) a in
        (Val result, deliver SigLate env a, events).

(* ================================================================== *)
(** ** picker.py: [VideoPicker] *)

Definition build_pool : M nat :=
  fun a =>
    let k := builds (cursor a) in
    let a := set_cursor (next_build (cursor a)) a in
    match tba_pool W k with
    | None =>
        (Raised tba_error, a, [EvBuildPool])
    | Some videos =>
        let now := monotonic W (clock_reads (cursor a)) in
        let a := set_cursor (next_clock_read (cursor a)) a in
        let a := set_picker {| _pool := videos; _index := 0;
                               _pool_built_at := now |} a in
        (Val (length videos), a, [EvBuildPool])
    end.

Definition read_monotonic : M Q :=
  fun a =>
    (Val (monotonic W (clock_reads (cursor a))),
     set_cursor (next_clock_read (cursor a)) a, []).

Definition reshuffle : M unit :=
  fun a =>
    let p := _picker a in
    let pool := shuffle W (shuffles (cursor a)) (_pool p) in
    let a := set_cursor (next_shuffle (cursor a)) a in
    (Val tt,
     set_picker {| _pool := pool; _index := 0;
                   _pool_built_at := _pool_built_at p |} a, []).

Definition advance_index (a : Application) : Application :=
  let p := _picker a in
  set_picker {| _pool := _pool p; _index := S (_index p);
                _pool_built_at := _pool_built_at p |} a.

Definition next_video : M (option MatchVideo) :=
  emit EvNextVideo ;;
  a <- get ;;
  (if (length (_pool (_picker a)) <=? _index (_picker a))%nat then
     now <- read_monotonic ;;
     let elapsed := (now - _pool_built_at (_picker a))%Q in
     if Qle_bool (inject_Z (cache_ttl (tba config))) elapsed
     then (build_pool ;; ret tt)
     else reshuffle
   else ret tt) ;;
  a <- get ;;
  match _pool (_picker a) with
  | [] => ret None
  | _ :: _ =>
      match nth_error (_pool (_picker a)) (_index (_picker a)) with
      | Some video => modify advance_index ;; ret (Some video)
      | None => raise (PyException "IndexError")
      end
  end.

(* ================================================================== *)
(** ** main.py: [Application] *)

Definition CIRCUIT_BREAKER_THRESHOLD : Z := 10.
Definition CIRCUIT_BREAKER_PAUSE : Q := 60.

Definition _safe_rebuild_pool : M unit :=
  try_except (build_pool ;; ret tt) (ret tt).

(** [_sleep]: returns at once when not running; otherwise it sleeps in
    slices of at most a second until the time is up or the handler has
    cleared [_running]. *)
Definition _sleep (seconds : Seconds) : M unit :=
  fun a =>
    if _running a then
      let k := sleeps (cursor a) in
      let a := set_cursor (next_sleep (cursor a)) a in
      (Val tt, if signal_in_sleep W k then _handle_signal a else a,
       [EvSleep seconds])
    else (Val tt, a, [EvSleep seconds]).

(** [2 ** n] is [2 ^ n] for the [n >= 0] the counter always is; a negative
    exponent, where Python answers with a [float], is outside the model. *)
Definition _handle_result (result : StreamResult) : M unit :=
  if StreamResult_eqb result SUCCESS then
    modify (set_consecutive_errors 0)
  else if StreamResult_eqb result INTERRUPTED then ret tt
  else if StreamResult_eqb result VIDEO_UNAVAILABLE then ret tt
  else
    modify (fun a => set_consecutive_errors (_consecutive_errors a + 1) a) ;;
    if StreamResult_eqb result RTMP_ERROR then
      a <- get ;;
      let backoff := Z.min (2 ^ _consecutive_errors a) 120 in
      _sleep (IntSec backoff)
    else
      _sleep (FloatSec (error_cooldown (stream config))).

(** [result in (SUCCESS, INTERRUPTED, VIDEO_UNAVAILABLE)] *)
Definition stops_retry (result : StreamResult) : bool :=
  StreamResult_eqb result SUCCESS || StreamResult_eqb result INTERRUPTED ||
  StreamResult_eqb result VIDEO_UNAVAILABLE.

(** The [while retries <= max_retries_per_video and self._running] loop,
    entered with the current [result] and [retries]. *)
Fixpoint retry_loop (fuel : nat) (video : MatchVideo)
  (result : StreamResult) (retries : Z) : M StreamResult :=
  match fuel with
  | O => out_of_fuel
  | S fuel' =>
      a <- get ;;
      if (retries <=? max_retries_per_video (stream config)) && _running a
      then
        result <- stream_video video ;;
        emit (EvStreamed video result) ;;
        if stops_retry result then ret result
        else
          let retries := retries + 1 in
          (if retries <=? max_retries_per_video (stream config)
           then _sleep (FloatSec (retry_delay (stream config)))
           else ret tt) ;;
          retry_loop fuel' video result retries
      else ret result
  end.

(** The body of [while self._running]. *)
Definition iteration (fuel : nat) : M unit :=
  a <- get ;;
  if CIRCUIT_BREAKER_THRESHOLD <=? _consecutive_errors a then
    _sleep (FloatSec CIRCUIT_BREAKER_PAUSE) ;;
    modify (set_consecutive_errors 0)
  else
    video <- next_video ;;
    match video with
    | None =>
        _sleep (IntSec 60) ;;
        _safe_rebuild_pool
    | Some video =>
        result <- retry_loop fuel video INTERRUPTED 0 ;;
        _handle_result result
    end.

Fixpoint main_loop (fuel : nat) : M unit :=
  match fuel with
  | O => out_of_fuel
  | S fuel' =>
      a <- get ;;
      if _running a then iteration fuel' ;; main_loop fuel'
      else ret tt
  end.

Definition run (fuel : nat) : M unit :=
  pool_size <- try_except build_pool (raise (SystemExit 1)) ;;
  if (pool_size =? 0)%nat then raise (SystemExit 1)
  else main_loop fuel.

(** [Application.__init__] *)
Definition Application_init : Application * list Event :=
  let '(encoder, extra_args, events) :=
    _detect_hw_encoder W (hw_accel (stream config)) in
  ({| _picker := {| _pool := []; _index := 0; _pool_built_at := 0 |};
      _streamer := {| _encoder := encoder; _encoder_args := extra_args;
                      _interrupted := false; _current_procs := [] |};
      _running := true;
      _consecutive_errors := 0;
      cursor := {| runs := 0; sleeps := 0; builds := 0;
                   clock_reads := 0; shuffles := 0 |} |},
   events).

(** [main], after the configuration is loaded and validated. *)
Definition main (fuel : nat) : Res unit * Application * list Event :=
  let '(app, events) := Application_init in
  match run fuel app with
  | (r, a, t) => (r, a, (events ++ t)%list)
  end.

End Program.

(* ================================================================== *)
(** ** Reading a trace *)

(** The outcomes of the pipeline invocations of a trace, in order. *)
Fixpoint streamed (t : list Event) : list StreamResult :=
  match t with
  | [] => []
  | EvStreamed _ r :: t' => r :: streamed t'
  | _ :: t' => streamed t'
  end.

(** The children a trace tried to start. *)
Fixpoint popens (t : list Event) : list Proc :=
  match t with
  | [] => []
  | EvPopen p _ :: t' => p :: popens t'
  | _ :: t' => popens t'
  end.

(** A candidate of [_detect_hw_encoder] is present in the probed text. *)
Definition present (available : string)
  (candidate : string * string * list string) : Prop :=
  PyStr.occurs (snd (fst candidate)) available.

(** A failure outcome: one that counts against the circuit breaker. *)
Definition is_failure (r : StreamResult) : Prop :=
  r = DOWNLOAD_ERROR \/ r = ENCODE_ERROR \/ r = RTMP_ERROR.

(** A computation that leaves [_consecutive_errors] alone, however it
    ends. *)
Definition keeps_errors {A} (m : M A) : Prop :=
  forall a, _consecutive_errors (snd (fst (m a))) = _consecutive_errors a.


(** The counter is within the bounds the circuit breaker keeps it in. *)
Definition counter_ok (a : Application) : Prop :=
  0 <= _consecutive_errors a <= 10.

(* ================================================================== *)
(** ** Concrete inputs *)

Definition qm1 : MatchVideo :=
  {| youtube_id := "dQw4w9WgXcQ"; match_key := "2024txda_qm1";
     comp_level := "qm"; event_key := "2024txda"; year := 2024;
     description := "2024txda_qm1" |}.

(** Both children run to the end and exit with status 0. *)
Definition run_ok : RunEnv :=
  {| ytdlp_starts := true; ffmpeg_starts := true;
     ytdlp_rc := 0; ffmpeg_rc := 0;
     ytdlp_stderr_text := []; ffmpeg_stderr_lines := [];
     run_signal := NoSignal |}.

(** ffmpeg gives up on its input and exits with status 1. *)
Definition run_encode_fails : RunEnv :=
  {| ytdlp_starts := true; ffmpeg_starts := true;
     ytdlp_rc := 0; ffmpeg_rc := 1;
     ytdlp_stderr_text := [];
     ffmpeg_stderr_lines := ["Invalid data found when processing input"];
     run_signal := NoSignal |}.

(** The ffmpeg executable cannot be started: the second [Popen] raises. *)
Definition run_ffmpeg_missing : RunEnv :=
  {| ytdlp_starts := true; ffmpeg_starts := false;
     ytdlp_rc := 0; ffmpeg_rc := 0;
     ytdlp_stderr_text := []; ffmpeg_stderr_lines := [];
     run_signal := NoSignal |}.

(** A world with a VAAPI-capable ffmpeg, a one-video pool, a clock that
    advances 4000 s between readings, no signal, and every run as [run]. *)
Definition world_of (run : RunEnv) : World :=
  {| which_ffmpeg := Some "/usr/bin/ffmpeg";
     ffmpeg_encoders := Some " V....D h264_vaapi   H.264/AVC (VAAPI)";
     pipeline := fun _ => run;
     signal_in_sleep := fun _ => false;
     tba_pool := fun _ => Some [qm1];
     monotonic := fun k => inject_Z (4000 * Z.of_nat k);
     shuffle := fun _ pool => pool |}.

(** The same with the TBA service down from the second [build_pool] on. *)
Definition world_tba_outage : World :=
  {| which_ffmpeg := Some "/usr/bin/ffmpeg";
     ffmpeg_encoders := Some " V....D h264_vaapi   H.264/AVC (VAAPI)";
     pipeline := fun _ => run_ok;
     signal_in_sleep := fun _ => false;
     tba_pool := fun k => match k with O => Some [qm1] | S _ => None end;
     monotonic := fun k => inject_Z (4000 * Z.of_nat k);
     shuffle := fun _ pool => pool |}.

(** An application between two items, with [n] consecutive errors. *)
Definition idle_app (n : Z) : Application :=
  {| _picker := {| _pool := [qm1]; _index := 1; _pool_built_at := 0 |};
     _streamer := {| _encoder := "libx264"; _encoder_args := [];
                     _interrupted := false; _current_procs := [] |};
     _running := true;
     _consecutive_errors := n;
     cursor := {| runs := 0; sleeps := 0; builds := 1;
                  clock_reads := 1; shuffles := 0 |} |}.

(* ================================================================== *)
(** ** More readings of the program *)

(** [n] calls of [next_video] in a row, with what each returned. *)
Fixpoint next_videos (W : World) (config : AppConfig) (n : nat)
  : M (list (option MatchVideo)) :=
  match n with
  | O => ret []
  | S n' =>
      video <- next_video W config ;;
      videos <- next_videos W config n' ;;
      ret (video :: videos)
  end.

(** The two flags the signal handler sets agree, and no child process is
    tracked. *)
Definition flags_in_step (a : Application) : Prop :=
  _interrupted (_streamer a) = negb (_running a) /\
  _current_procs (_streamer a) = [].

(** A computation that keeps [flags_in_step], however it ends. *)
Definition keeps_flags {A} (m : M A) : Prop :=
  forall a, flags_in_step a -> flags_in_step (snd (fst (m a))).

(** The [_sleep] calls of a trace, in order. *)
Fixpoint slept (t : list Event) : list Seconds :=
  match t with
  | [] => []
  | EvSleep s :: t' => s :: slept t'
  | _ :: t' => slept t'
  end.

(** The [build_pool] calls of a trace. *)
Fixpoint rebuilds (t : list Event) : nat :=
  match t with
  | [] => O
  | EvBuildPool :: t' => S (rebuilds t')
  | _ :: t' => rebuilds t'
  end.

(* ================================================================== *)
(** ** streamer.py: the two command lines *)

(** The fields of [StreamConfig] that shape the command lines. *)
Record SinkConfig := {
  rtmp_url : string;
  rtmp_token : string;
  video_bitrate : string;
  audio_bitrate : string;
  preset : string;
  ytdlp_format : string;
}.

(** [bool(s)] for a string *)
Definition nonempty (s : string) : bool := negb (String.eqb s "").

Definition _build_rtmp_url (c : SinkConfig) : string :=
  let url := rtmp_url c in
  if nonempty (rtmp_token c) then
    let sep := if PyStr.str_in "?" url then "&" else "?" in
    url ++ sep ++ "token=" ++ rtmp_token c
  else url.

Definition _build_ffmpeg_args (c : SinkConfig) (encoder : string)
  (encoder_args : list string) (rtmp_url : string) : list string :=
  let args := ["ffmpeg"; "-hide_banner"; "-loglevel"; "warning"] in
  let args :=
    if PyStr.str_in "vaapi" encoder
    then (args ++ ["-vaapi_device"; "/dev/dri/renderD128"])%list
    else args in
  let args := (args ++ ["-re"; "-i"; "pipe:0"])%list in
  let args := (args ++ ["-c:v"; encoder])%list in
  let args :=
    if String.eqb encoder "libx264"
    then (args ++ ["-preset"; preset c])%list
    else args in
  let args := (args ++ encoder_args)%list in
  let args := (args ++ ["-b:v"; video_bitrate c])%list in
  let args := (args ++ ["-c:a"; "aac"; "-b:a"; audio_bitrate c])%list in
  (args ++ ["-f"; "flv"; rtmp_url])%list.

(** [ytdlp_cmd] of [stream_video] *)
Definition ytdlp_cmd (c : SinkConfig) (video : MatchVideo) : list string :=
  ["yt-dlp"; "--no-warnings"; "-f"; ytdlp_format c; "-o"; "-";
   "https://www.youtube.com/watch?v=" ++ youtube_id video].

(** [ffmpeg_cmd] of [stream_video], for the encoder fixed at start-up. *)
Definition ffmpeg_cmd (c : SinkConfig) (s : VideoStreamer) : list string :=
  _build_ffmpeg_args c (_encoder s) (_encoder_args s) (_build_rtmp_url c).

(* ================================================================== *)
(** ** streamer.py: [_drain_stderr] *)






(* ================================================================== *)
(** ** streamer.py: [_kill_current] on the children themselves *)

Module Procs.

(** How a child answers the calls of [_kill_current]. *)
Record Child := {
  (** [proc.poll() is None] *)
  alive : bool;
  (** [proc.wait(timeout=5)] returns instead of raising [TimeoutExpired] *)
  exits_in_grace : bool;
  (** [proc.kill()] raises [OSError] *)
  kill_fails : bool;
  (** [proc.wait(timeout=2)] returns instead of raising [TimeoutExpired] *)
  exits_after_kill : bool;
}.

Inductive Action :=
| Term (p : Proc)   (* proc.send_signal(SIGTERM), an OSError is passed over *)
| Wait5 (p : Proc)  (* proc.wait(timeout=5) *)
| Kill (p : Proc)   (* proc.kill() *)
| Wait2 (p : Proc). (* proc.wait(timeout=2) *)

(** The first loop. *)
Fixpoint terminate (env : Proc -> Child) (procs : list Proc) : list Action :=
  match procs with
  | [] => []
  | p :: rest =>
      if alive (env p) then Term p :: terminate env rest
      else terminate env rest
  end.

(** The second loop; [false]: a [TimeoutExpired] of [wait(timeout=2)] left
    it, which [except OSError] does not catch. *)
Fixpoint reap (env : Proc -> Child) (procs : list Proc)
  : list Action * bool :=
  match procs with
  | [] => ([], true)
  | p :: rest =>
      if exits_in_grace (env p) then
        let '(acts, ok) := reap env rest in (Wait5 p :: acts, ok)
      else if kill_fails (env p) then
        let '(acts, ok) := reap env rest in (Wait5 p :: Kill p :: acts, ok)
      else if exits_after_kill (env p) then
        let '(acts, ok) := reap env rest in
        (Wait5 p :: Kill p :: Wait2 p :: acts, ok)
      else ([Wait5 p; Kill p; Wait2 p], false)
  end.

(** [_kill_current]: the tracked list afterwards, what was done to the
    children, and whether the call returned. *)
Definition _kill_current (env : Proc -> Child) (procs : list Proc)
  : list Proc * list Action * bool :=
  let acts1 := terminate env procs in
  let '(acts2, ok) := reap env procs in
  if ok then ([], (acts1 ++ acts2)%list, true)
  else (procs, (acts1 ++ acts2)%list, false).

End Procs.

(* ================================================================== *)
(** ** main.py: [_sleep] against the clock *)

Module Timer.

(** The clock and the signal, as one call of [_sleep] meets them. *)
Record Clock := {
  (** the k-th reading of [time.monotonic()], from 0 *)
  reading : nat -> Q;
  (** the handler clears [_running] during the [time.sleep] that follows
      the k-th reading *)
  signal_in_slice : nat -> bool;
}.

(** The [while self._running] loop, about to take reading [k]: the
    arguments given to [time.sleep], and [_running] at the end. [None]: the
    loop is still going when the step budget runs out. *)
Fixpoint wait (clk : Clock) (end_ : Q) (fuel : nat) (running : bool)
  (k : nat) : option (list Q * bool) :=
  match fuel with
  | O => None
  | S fuel' =>
      if running then
        let remaining := (end_ - reading clk k)%Q in
        if Qle_bool remaining 0 then Some ([], true)
        else
          let slice := Qmin 1 remaining in
          match wait clk end_ fuel' (negb (signal_in_slice clk k)) (S k) with
          | Some (slices, r) => Some (slice :: slices, r)
          | None => None
          end
      else Some ([], false)
  end.

Definition _sleep (clk : Clock) (seconds : Q) (fuel : nat) (running : bool)
  : option (list Q * bool) :=
  let end_ := (reading clk 0 + seconds)%Q in
  wait clk end_ fuel running 1.

End Timer.

(** A computation that starts no child process and reports no pipeline
    outcome, however it ends. *)
Definition idle {A} (m : M A) : Prop :=
  forall a, streamed (snd (m a)) = [] /\ popens (snd (m a)) = [].

(* ================================================================== *)
(** ** config.py: [validate_config], and what [main] makes of it *)

Module Validation.

(** The fields of [AppConfig] that [validate_config] reads. *)
Record Config := {
  tba_api_key : string;
  tba_request_delay : Q;
  filters_years : list Z;
  filters_events : list string;
  filters_comp_levels : list string;
  stream_hw_accel : string;
  stream_rtmp_url : string;
  logging_level : string;
}.

(** The issues it reports. Their texts differ from run to run (two of them
    print a [set]); what [main] reads of a text is whether it starts with
    "ERROR". *)
Inductive Issue :=
| EmptyApiKey                         (* ERROR: tba.api_key is empty *)
| NegativeRequestDelay                (* ERROR: tba.request_delay must be ... *)
| NoYearsNoEvents                     (* ERROR: Must specify at least one ... *)
| UnknownCompLevel (level : string)   (* WARNING: Unknown comp_level ... *)
| BadHwAccel                          (* ERROR: stream.hw_accel must be ... *)
| NoRtmpUrl                           (* ERROR: stream.rtmp_url is required *)
| UnknownLoggingLevel (level : string). (* WARNING: Unknown logging level ... *)

(** [issue.startswith("ERROR")] *)
Definition is_error (i : Issue) : bool :=
  match i with
  | UnknownCompLevel _ | UnknownLoggingLevel _ => false
  | _ => true
  end.

(** [c.upper()] for one character, and [s.upper()]. *)
Definition upper_ascii (c : ascii) : ascii :=
  let n := N_of_ascii c in
  if ((97 <=? n) && (n <=? 122))%N then ascii_of_N (n - 32) else c.

Fixpoint upper (s : string) : string :=
  match s with
  | EmptyString => EmptyString
  | String c r => String (upper_ascii c) (upper r)
  end.

(** [x in {...}] on strings *)
Definition member (x : string) (set : list string) : bool :=
  existsb (String.eqb x) set.

Definition valid_levels : list string := ["qm"; "qf"; "sf"; "f"].
Definition valid_hw : list string :=
  ["auto"; "nvenc"; "videotoolbox"; "vaapi"; "none"].
Definition valid_log_levels : list string :=
  ["DEBUG"; "INFO"; "WARNING"; "ERROR"; "CRITICAL"].

(** The [for level in config.filters.comp_levels] loop. *)
Fixpoint comp_level_issues (levels : list string) : list Issue :=
  match levels with
  | [] => []
  | level :: rest =>
      if member level valid_levels then comp_level_issues rest
      else UnknownCompLevel level :: comp_level_issues rest
  end.

Definition validate_config (config : Config) : list Issue :=
  let issues := [] in
  let issues :=
    if nonempty (tba_api_key config) then issues
    else (issues ++ [EmptyApiKey])%list in
  let issues :=
    if Qle_bool 0 (tba_request_delay config) then issues
    else (issues ++ [NegativeRequestDelay])%list in
  let issues :=
    match filters_years config, filters_events config with
    | [], [] => (issues ++ [NoYearsNoEvents])%list
    | _, _ => issues
    end in
  let issues :=
    (issues ++ comp_level_issues (filters_comp_levels config))%list in
  let issues :=
    if member (stream_hw_accel config) valid_hw then issues
    else (issues ++ [BadHwAccel])%list in
  let issues :=
    if nonempty (stream_rtmp_url config) then issues
    else (issues ++ [NoRtmpUrl])%list in
  let issues :=
    if member (upper (logging_level config)) valid_log_levels then issues
    else (issues ++ [UnknownLoggingLevel (logging_level config)])%list in
  issues.

(** main.py, [main]: [errors = [i for i in issues if i.startswith("ERROR")]];
    the application is built and run when there is none, and the process
    exits with status 1 otherwise. *)
Definition errors (config : Config) : list Issue :=
  filter is_error (validate_config config).

Definition warnings (config : Config) : list Issue :=
  filter (fun i => negb (is_error i)) (validate_config config).

End Validation.

(* ================================================================== *)
(** ** tba.py and picker.py: how [build_pool] arrives at its videos *)

Module Pool.

(** tba.py, [EventInfo]. *)
Record EventInfo := {
  key : string;
  name : string;
  event_year : Z;
  state_prov : string;
  district_abbrev : option string;
}.

(** config.py, [FilterConfig]. *)
Record FilterConfig := {
  years : list Z;
  teams : list Z;
  events : list string;
  states : list string;
  districts : list string;
  comp_levels : list string;
}.

(** A video and a match as TBA sends them: JSON objects, of which the code
    reads these keys with [.get]; [None] is a key that is not there, and a
    key that is there holds a value of the type the code expects. *)
Record RawVideo := {
  video_type : option string;   (* "type" *)
  video_key : option string;    (* "key" *)
}.

Record RawMatch := {
  raw_key : option string;          (* "key" *)
  raw_event_key : option string;    (* "event_key" *)
  raw_comp_level : option string;   (* "comp_level" *)
  raw_videos : option (list RawVideo); (* "videos" *)
}.

(** The three requests of [TBAClient], as the service answers them through
    one [build_pool]; [None]: the request raises. *)
Record Client := {
  get_events_for_year : Z -> option (list EventInfo);
  get_event_matches : string -> option (list RawMatch);
  get_team_matches : Z -> Z -> option (list RawMatch);
}.

(** [d.get(k, default)] *)
Definition get_or {A} (field : option A) (default : A) : A :=
  match field with
  | Some x => x
  | None => default
  end.

(** [s[:4]] *)
Definition first4 (s : string) : string := String.substring 0 4 s.

Section WithInt.

(** [int(s)] on a string; [None]: it raises [ValueError]. *)
Variable py_int : string -> option Z.

(** [int(event_key[:4]) if len(event_key) >= 4 else 0]; [None]: the
    [ValueError] of [int]. *)
Definition year_of (event_key : string) : option Z :=
  if (4 <=? String.length event_key)%nat then py_int (first4 event_key)
  else Some 0.

(** The inner loop of [extract_videos_from_matches], for one match. *)
Fixpoint videos_of_match (m : RawMatch) (videos : list RawVideo)
  : option (list MatchVideo) :=
  match videos with
  | [] => Some []
  | video :: rest =>
      if negb (match video_type video with
               | Some t => String.eqb t "youtube"
               | None => false
               end)
      then videos_of_match m rest
      else
        let yt_id := get_or (video_key video) "" in
        if negb (nonempty yt_id) then videos_of_match m rest
        else
          let event_key := get_or (raw_event_key m) "" in
          match year_of event_key with
          | None => None
          | Some year =>
              match videos_of_match m rest with
              | None => None
              | Some more =>
                  Some ({| youtube_id := yt_id;
                           match_key := get_or (raw_key m) "";
                           comp_level := get_or (raw_comp_level m) "";
                           event_key := event_key;
                           year := year;
                           description := get_or (raw_key m) "" |} :: more)
              end
          end
  end.

(** tba.py, [extract_videos_from_matches]. *)
Fixpoint extract_videos_from_matches (matches : list RawMatch)
  : option (list MatchVideo) :=
  match matches with
  | [] => Some []
  | m :: rest =>
      match videos_of_match m (get_or (raw_videos m) []) with
      | None => None
      | Some videos =>
          match extract_videos_from_matches rest with
          | None => None
          | Some more => Some (videos ++ more)%list
          end
      end
  end.

Variable client : Client.
Variable filters : FilterConfig.

(** [x in {s.lower() for s in set}] *)
Definition in_lowered (x : string) (set : list string) : bool :=
  existsb (String.eqb x) (map PyStr.lower set).

(** The stub built for an explicitly configured event key. *)
Definition stub (ek : string) : EventInfo :=
  {| key := ek; name := ek;
     event_year := match year_of ek with Some y => y | None => 0 end;
     state_prov := ""; district_abbrev := None |}.

(** The [for year in self._filters.years] loop of [_resolve_events]. *)
Fixpoint events_of_years (years : list Z) : option (list EventInfo) :=
  match years with
  | [] => Some []
  | year :: rest =>
      match get_events_for_year client year with
      | None => None
      | Some found =>
          match events_of_years rest with
          | None => None
          | Some more => Some (found ++ more)%list
          end
      end
  end.

Definition _resolve_events : option (list EventInfo) :=
  match events filters with
  | _ :: _ => Some (map stub (events filters))
  | [] =>
      match events_of_years (years filters) with
      | None => None
      | Some all_events =>
          let all_events :=
            match states filters with
            | [] => all_events
            | _ :: _ =>
                filter (fun e => in_lowered (PyStr.lower (state_prov e))
                                            (states filters))
                       all_events
            end in
          let all_events :=
            match districts filters with
            | [] => all_events
            | _ :: _ =>
                filter (fun e =>
                          match district_abbrev e with
                          | Some d =>
                              nonempty d &&
                              in_lowered (PyStr.lower d) (districts filters)
                          | None => false
                          end)
                       all_events
            end in
          Some all_events
      end
  end.

(** [_fetch_videos_for_events]: an event whose request or extraction raises
    is passed over. *)
Fixpoint _fetch_videos_for_events (evs : list EventInfo) : list MatchVideo :=
  match evs with
  | [] => []
  | event :: rest =>
      match get_event_matches client (key event) with
      | Some matches =>
          match extract_videos_from_matches matches with
          | Some videos => (videos ++ _fetch_videos_for_events rest)%list
          | None => _fetch_videos_for_events rest
          end
      | None => _fetch_videos_for_events rest
      end
  end.

(** The years parsed from the configured event keys. *)
Fixpoint parsed_years (eks : list string) : list Z :=
  match eks with
  | [] => []
  | ek :: rest =>
      if (4 <=? String.length ek)%nat then
        match py_int (first4 ek) with
        | Some y => y :: parsed_years rest
        | None => parsed_years rest
        end
      else parsed_years rest
  end.

(** The keys of the matches of one team, over [years]. *)
Fixpoint keys_of_team (team : Z) (years : list Z) : list string :=
  match years with
  | [] => []
  | year :: rest =>
      match get_team_matches client team year with
      | Some matches =>
          (map (fun m => get_or (raw_key m) "") matches
           ++ keys_of_team team rest)%list
      | None => keys_of_team team rest
      end
  end.

(** [_fetch_team_match_keys]; the [set] it returns is read with [in] only,
    and is the list of its members here. *)
Definition _fetch_team_match_keys : option (list string) :=
  match teams filters with
  | [] => None
  | _ :: _ =>
      let years :=
        match events filters with
        | [] => years filters
        | _ :: _ =>
            match parsed_years (events filters) with
            | [] => years filters
            | _ :: _ as parsed => parsed
            end
        end in
      Some (flat_map (fun team => keys_of_team team years) (teams filters))
  end.

(** The de-duplication loop, entered with the ids [seen] so far. *)
Fixpoint dedupe (seen : list string) (videos : list MatchVideo)
  : list MatchVideo :=
  match videos with
  | [] => []
  | v :: rest =>
      if existsb (String.eqb (youtube_id v)) seen then dedupe seen rest
      else v :: dedupe (youtube_id v :: seen) rest
  end.

(** [build_pool] up to the shuffle: the list handed to [random.shuffle];
    [None]: the exception that leaves [_resolve_events]. *)
Definition videos_to_shuffle : option (list MatchVideo) :=
  match _resolve_events with
  | None => None
  | Some evs =>
      let videos := _fetch_videos_for_events evs in
      let videos :=
        match _fetch_team_match_keys with
        | Some team_keys =>
            filter (fun v => existsb (String.eqb (match_key v)) team_keys)
                   videos
        | None => videos
        end in
      let videos :=
        match comp_levels filters with
        | [] => videos
        | _ :: _ =>
            filter (fun v => existsb (String.eqb (comp_level v))
                                     (comp_levels filters))
                   videos
        end in
      Some (dedupe [] videos)
  end.

End WithInt.

End Pool.

(* ================================================================== *)
(** ** Concrete inputs for the pool *)

(** An [int] that reads the one year used below. *)
Definition int_2024 (s : string) : option Z :=
  if String.eqb s "2024" then Some 2024 else None.

Definition raw_qm1 : Pool.RawMatch :=
  {| Pool.raw_key := Some "2024txda_qm1";
     Pool.raw_event_key := Some "2024txda";
     Pool.raw_comp_level := Some "qm";
     Pool.raw_videos :=
       Some [ {| Pool.video_type := Some "youtube";
                 Pool.video_key := Some "dQw4w9WgXcQ" |} ] |}.

(** The same match filed under an event key that does not start with a
    year. *)
Definition raw_bad_key : Pool.RawMatch :=
  {| Pool.raw_key := Some "txda_qm1";
     Pool.raw_event_key := Some "txda2024";
     Pool.raw_comp_level := Some "qm";
     Pool.raw_videos :=
       Some [ {| Pool.video_type := Some "youtube";
                 Pool.video_key := Some "dQw4w9WgXcQ" |} ] |}.

Definition txda : Pool.EventInfo :=
  {| Pool.key := "2024txda"; Pool.name := "Dallas"; Pool.event_year := 2024;
     Pool.state_prov := "TX"; Pool.district_abbrev := Some "fit" |}.

Definition client_up : Pool.Client :=
  {| Pool.get_events_for_year := fun _ => Some [txda];
     Pool.get_event_matches := fun _ => Some [raw_qm1];
     Pool.get_team_matches := fun _ _ => None |}.

Definition client_down : Pool.Client :=
  {| Pool.get_events_for_year := fun _ => None;
     Pool.get_event_matches := fun _ => None;
     Pool.get_team_matches := fun _ _ => None |}.

(** [FilterConfig()] with the given competition levels. *)
Definition filters_2024 (levels : list string) : Pool.FilterConfig :=
  {| Pool.years := [2024]; Pool.teams := []; Pool.events := [];
     Pool.states := []; Pool.districts := []; Pool.comp_levels := levels |}.

(* ================================================================== *)
(** ** config.py: [_resolve_env_vars] *)

Module Env.

(** A value of the parsed YAML file. *)
Inductive Scalar :=
| SInt (n : Z)
| SFloat (q : Q)
| SBool (b : bool)
| SNull.

Unset Elimination Schemes.

Inductive Yaml :=
| YStr (s : string)
| YDict (items : list (string * Yaml))   (* keys as they are, in order *)
| YList (items : list Yaml)
| YOther (x : Scalar).

Set Elimination Schemes.

(** The outcome of a call: the value, or the variable whose absence raised
    [ValueError]. *)
Inductive Resolved (A : Type) :=
| Ok (x : A)
| NotSet (var : string).

Arguments Ok {A} x.
Arguments NotSet {A} var.

Definition dollar : ascii := ascii_of_N 36.
Definition lbrace : ascii := ascii_of_N 123.
Definition rbrace : ascii := ascii_of_N 125.

(** [_ENV_VAR_PATTERN.sub(_replace, value)] for the pattern
    [\$\{([^}]+)\}], read from left to right. [inside] is [None] between
    matches, and [Some name] after a "${" whose name has reached [name]: the
    match is complete at the first "}" when the name is not empty; "${}" and
    a "${" that no "}" follows are not matches and stay as they are. A
    substituted value is not read again. *)
Fixpoint sub (environ : string -> option string) (inside : option string)
  (value : string) : Resolved string :=
  match inside with
  | None =>
      match value with
      | EmptyString => Ok EmptyString
      | String c rest =>
          let literal :=
            match sub environ None rest with
            | Ok r => Ok (String c r)
            | NotSet var => NotSet var
            end in
          if Ascii.eqb c dollar then
            match rest with
            | String c' rest' =>
                if Ascii.eqb c' lbrace then sub environ (Some EmptyString) rest'
                else literal
            | EmptyString => literal
            end
          else literal
      end
  | Some name =>
      match value with
      | EmptyString => Ok (String dollar (String lbrace name))
      | String c rest =>
          if Ascii.eqb c rbrace then
            match name with
            | EmptyString =>
                match sub environ None rest with
                | Ok r => Ok (String dollar (String lbrace (String rbrace r)))
                | NotSet var => NotSet var
                end
            | String _ _ =>
                match environ name with
                | None => NotSet name
                | Some env_val =>
                    match sub environ None rest with
                    | Ok r => Ok (env_val ++ r)
                    | NotSet var => NotSet var
                    end
                end
            end
          else sub environ (Some (name ++ String c EmptyString)) rest
      end
  end.

Fixpoint _resolve_env_vars (environ : string -> option string) (value : Yaml)
  : Resolved Yaml :=
  match value with
  | YStr s =>
      match sub environ None s with
      | Ok r => Ok (YStr r)
      | NotSet var => NotSet var
      end
  | YDict items =>
      let fix over (items : list (string * Yaml))
        : Resolved (list (string * Yaml)) :=
        match items with
        | [] => Ok []
        | (k, v) :: rest =>
            match _resolve_env_vars environ v with
            | NotSet var => NotSet var
            | Ok v' =>
                match over rest with
                | NotSet var => NotSet var
                | Ok rest' => Ok ((k, v') :: rest')
                end
            end
        end in
      match over items with
      | Ok items' => Ok (YDict items')
      | NotSet var => NotSet var
      end
  | YList items =>
      let fix over (items : list Yaml) : Resolved (list Yaml) :=
        match items with
        | [] => Ok []
        | v :: rest =>
            match _resolve_env_vars environ v with
            | NotSet var => NotSet var
            | Ok v' =>
                match over rest with
                | NotSet var => NotSet var
                | Ok rest' => Ok (v' :: rest')
                end
            end
        end in
      match over items with
      | Ok items' => Ok (YList items')
      | NotSet var => NotSet var
      end
  | YOther x => Ok (YOther x)
  end.

(** No character of [s] is [c]. *)
Fixpoint free_of (c : ascii) (s : string) : bool :=
  match s with
  | EmptyString => true
  | String x rest => negb (Ascii.eqb x c) && free_of c rest
  end.

(** No string inside [v] holds a dollar sign. *)
Fixpoint dollar_free (v : Yaml) : bool :=
  match v with
  | YStr s => free_of dollar s
  | YDict items => forallb (fun kv => dollar_free (snd kv)) items
  | YList items => forallb dollar_free items
  | YOther _ => true
  end.

End Env.

(* ================================================================== *)
(** ** tba.py: [TBAClient._get] *)

Module Tba.

Section WithData.

(** The decoded JSON of a response. *)
Variable Data : Type.

(** A response of the service. *)
Record Response := {
  status_code : Z;
  (** [resp.json()]; [None]: it raises *)
  json : option Data;
  (** [resp.headers.get("ETag")] *)
  etag_header : option string;
}.

(** The client between two requests: [_base_url], [_delay] and
    [_etag_cache], a dict from URL to (etag, data). *)
Record Client := {
  _base_url : string;
  _delay : Q;
  _etag_cache : string -> option (string * Data);
}.

Inductive Failure :=
| RequestFailed          (* session.get raised: no connection, timeout *)
| HTTPError (code : Z)   (* resp.raise_for_status() *)
| BadJSON                (* resp.json() raised *)
| KeyError (url : string). (* self._etag_cache[url] on a URL never cached *)

Inductive Outcome :=
| Returned (data : Data)
| Failed (why : Failure).

(** [self._etag_cache[url] = (etag, data)] *)
Definition store (url etag : string) (data : Data) (c : Client) : Client :=
  {| _base_url := _base_url c;
     _delay := _delay c;
     _etag_cache := fun u => if String.eqb u url then Some (etag, data)
                             else _etag_cache c u |}.

(** What one call of [_get] does: the pause it takes first for the rate
    limit, the URL and the [If-None-Match] header it sends, how it ends, and
    the client afterwards. [elapsed] is the time since the last request and
    [server] the answer to a URL and an [If-None-Match] header, [None] when
    the request itself raises. *)
Record Call := {
  paused : option Q;
  requested : string;
  if_none_match : option string;
  outcome : Outcome;
  client_after : Client;
}.

Definition _get (server : string -> option string -> option Response)
  (elapsed : Q) (c : Client) (path : string) : Call :=
  let pause :=
    if Qle_bool (_delay c) elapsed then None
    else Some (_delay c - elapsed)%Q in
  let url := _base_url c ++ path in
  let header :=
    match _etag_cache c url with
    | Some (etag, _) => Some etag
    | None => None
    end in
  let finish (o : Outcome) (c' : Client) :=
    {| paused := pause; requested := url; if_none_match := header;
       outcome := o; client_after := c' |} in
  match server url header with
  | None => finish (Failed RequestFailed) c
  | Some resp =>
      if status_code resp =? 304 then
        match _etag_cache c url with
        | Some (_, data) => finish (Returned data) c
        | None => finish (Failed (KeyError url)) c
        end
      else if (400 <=? status_code resp) && (status_code resp <? 600) then
        finish (Failed (HTTPError (status_code resp))) c
      else
        match json resp with
        | None => finish (Failed BadJSON) c
        | Some data =>
            match etag_header resp with
            | Some etag =>
                if nonempty etag
                then finish (Returned data) (store url etag data c)
                else finish (Returned data) c
            | None => finish (Returned data) c
            end
        end
  end.

End WithData.

End Tba.

(** An environment that sets one variable. *)
Definition environ_with_key (var : string) : option string :=
  if String.eqb var "TBA_KEY" then Some "k3y${X}" else None.

(* ================================================================== *)
(** * Properties *)

(** ** Strings *)

Module PyStrFacts.
Import PyStr.

Lemma append_nil_r (s : string) : s ++ "" = s.
Proof. induction s as [|c s IH]; simpl; [reflexivity | now rewrite IH]. Qed.

Lemma append_assoc (a b c : string) : (a ++ b) ++ c = a ++ (b ++ c).
Proof. induction a as [|x a IH]; simpl; [reflexivity | now rewrite IH]. Qed.

Lemma startswith_iff (p t : string) :
  startswith p t = true <-> exists post, t = p ++ post.
Proof.
  revert t; induction p as [|a p IH]; intros t; simpl.
  - split; [intros _; now exists t | reflexivity].
  - destruct t as [|b t].
    + split; [discriminate | intros [post H]; discriminate].
    + rewrite andb_true_iff, Ascii.eqb_eq, IH. split.
      * intros [-> [post ->]]. now exists post.
      * intros [post H]. injection H as -> ->. split; [reflexivity | now exists post].
Qed.

Lemma str_in_iff (p t : string) : str_in p t = true <-> occurs p t.
Proof.
  unfold occurs. induction t as [|c t IH].
  - simpl. rewrite orb_false_r, startswith_iff. split.
    + intros [post H]. now exists "", post.
    + intros [[|x pre] [post H]]; [now exists post | discriminate].
  - cbn [str_in]. rewrite orb_true_iff, startswith_iff, IH. split.
    + intros [[post H] | [pre [post H]]].
      * now exists "", post.
      * exists (String c pre), post. simpl. now rewrite H.
    + intros [[|x pre] [post H]].
      * left. now exists post.
      * right. simpl in H. injection H as -> ->. now exists pre, post.
Qed.

Lemma any_in_iff (phrases : list string) (text : string) :
  any_in phrases text = true <-> exists p, In p phrases /\ occurs p text.
Proof.
  induction phrases as [|q r IH]; simpl.
  - split; [discriminate | intros [p [[] _]]].
  - destruct (str_in q text) eqn:E.
    + split; [intros _ | reflexivity].
      exists q. split; [now left | now apply str_in_iff].
    + rewrite IH. split.
      * intros [p [Hin Hocc]]. exists p. split; [now right | assumption].
      * intros [p [[<- | Hin] Hocc]].
        -- apply str_in_iff in Hocc. congruence.
        -- now exists p.
Qed.

Lemma lower_app (a b : string) : lower (a ++ b) = lower a ++ lower b.
Proof. induction a as [|c a IH]; simpl; [reflexivity | now rewrite IH]. Qed.

Lemma occurs_lower (p t : string) : occurs p t -> occurs (lower p) (lower t).
Proof.
  intros [pre [post ->]]. exists (lower pre), (lower post).
  now rewrite !lower_app.
Qed.

Lemma occurs_trans (a b c : string) : occurs a b -> occurs b c -> occurs a c.
Proof.
  intros [p1 [q1 ->]] [p2 [q2 ->]].
  exists (p2 ++ p1), (q1 ++ q2). now rewrite !append_assoc.
Qed.

Lemma occurs_join (sep l : string) (ls : list string) :
  In l ls -> occurs l (join sep ls).
Proof.
  induction ls as [|x r IH]; [intros []|].
  intros [-> | Hin].
  - destruct r as [|y r]; cbn [join].
    + exists "", "". simpl. now rewrite append_nil_r.
    + now exists "", (sep ++ join sep (y :: r)).
  - destruct r as [|y r]; [destruct Hin|].
    destruct (IH Hin) as [pre [post E]]. cbn [join] in *.
    exists (x ++ sep ++ pre), post. rewrite E. now rewrite !append_assoc.
Qed.

End PyStrFacts.

(** ** The classifier *)

Lemma any_in_buffer_has (phrases buffer : list string) :
  PyStr.any_in phrases (PyStr.lower (PyStr.join PyStr.nl buffer)) = true
  <-> buffer_has phrases buffer.
Proof. apply PyStrFacts.any_in_iff. Qed.

Lemma any_in_not_buffer_has (phrases buffer : list string) :
  PyStr.any_in phrases (PyStr.lower (PyStr.join PyStr.nl buffer)) = false
  <-> ~ buffer_has phrases buffer.
Proof.
  rewrite <- any_in_buffer_has.
  destruct (PyStr.any_in _ _); split; congruence.
Qed.

Lemma line_video_unavailable (retrieval : list string) :
  In "ERROR: Video unavailable" retrieval ->
  buffer_has unavailable_phrases retrieval.
Proof.
  intros Hin. exists "video unavailable". split; [now left|].
  apply PyStrFacts.occurs_trans with (PyStr.lower "ERROR: Video unavailable").
  - now exists "error: ", "".
  - apply PyStrFacts.occurs_lower, PyStrFacts.occurs_join, Hin.
Qed.

(** C1. [_classify_error] is a function of the two buffers that tries its
    four phrase tables in a fixed order and answers with the first that
    matches: VIDEO_UNAVAILABLE when the yt-dlp buffer has an unavailability
    phrase; else DOWNLOAD_ERROR when it has a generic failure phrase; else
    RTMP_ERROR when the ffmpeg buffer has a connectivity phrase; else
    ENCODE_ERROR when it has a generic failure phrase; else DOWNLOAD_ERROR.
    A yt-dlp line "ERROR: Video unavailable" gives VIDEO_UNAVAILABLE
    whatever the ffmpeg buffer holds. *)
Theorem classify_error_precedence (retrieval encode : list string) :
  let verdict := _classify_error retrieval encode in
  (buffer_has unavailable_phrases retrieval -> verdict = VIDEO_UNAVAILABLE) /\
  (~ buffer_has unavailable_phrases retrieval ->
   buffer_has download_phrases retrieval -> verdict = DOWNLOAD_ERROR) /\
  (~ buffer_has unavailable_phrases retrieval ->
   ~ buffer_has download_phrases retrieval ->
   buffer_has rtmp_phrases encode -> verdict = RTMP_ERROR) /\
  (~ buffer_has unavailable_phrases retrieval ->
   ~ buffer_has download_phrases retrieval ->
   ~ buffer_has rtmp_phrases encode ->
   buffer_has encode_phrases encode -> verdict = ENCODE_ERROR) /\
  (~ buffer_has unavailable_phrases retrieval ->
   ~ buffer_has download_phrases retrieval ->
   ~ buffer_has rtmp_phrases encode ->
   ~ buffer_has encode_phrases encode -> verdict = DOWNLOAD_ERROR) /\
  (In "ERROR: Video unavailable" retrieval -> verdict = VIDEO_UNAVAILABLE).
Proof.
  assert (first_rule : buffer_has unavailable_phrases retrieval ->
                       _classify_error retrieval encode = VIDEO_UNAVAILABLE).
  { intros H. apply any_in_buffer_has in H. unfold _classify_error.
    now rewrite H. }
  cbv zeta. repeat split; try assumption.
  - intros H1 H2. unfold _classify_error.
    apply any_in_not_buffer_has in H1. apply any_in_buffer_has in H2.
    now rewrite H1, H2.
  - intros H1 H2 H3. unfold _classify_error.
    apply any_in_not_buffer_has in H1, H2. apply any_in_buffer_has in H3.
    now rewrite H1, H2, H3.
  - intros H1 H2 H3 H4. unfold _classify_error.
    apply any_in_not_buffer_has in H1, H2, H3. apply any_in_buffer_has in H4.
    now rewrite H1, H2, H3, H4.
  - intros H1 H2 H3 H4. unfold _classify_error.
    apply any_in_not_buffer_has in H1, H2, H3, H4.
    now rewrite H1, H2, H3, H4.
  - intros H. now apply first_rule, line_video_unavailable.
Qed.

Lemma classify_error_precedence_witness :
  _classify_error ["[youtube] abc: Downloading webpage";
                   "ERROR: Video unavailable"]
                  ["rtmp: Connection refused"] = VIDEO_UNAVAILABLE.
Proof.
  apply (classify_error_precedence
           ["[youtube] abc: Downloading webpage"; "ERROR: Video unavailable"]
           ["rtmp: Connection refused"]).
  simpl. right. left. reflexivity.
Defined.

Lemma classify_error_range (retrieval encode : list string) :
  let verdict := _classify_error retrieval encode in
  verdict = VIDEO_UNAVAILABLE \/ verdict = DOWNLOAD_ERROR \/
  verdict = RTMP_ERROR \/ verdict = ENCODE_ERROR.
Proof.
  unfold _classify_error.
  repeat match goal with |- context [if ?b then _ else _] => destruct b end;
    cbv zeta; auto.
Qed.

(** ** One pipeline run *)

(** C8. Whatever the descriptor, a run that finds the shutdown flag set
    returns INTERRUPTED at once: no child process is started and the
    streamer, its list of tracked processes included, is left as it was. *)
Theorem stream_video_when_interrupted (W : World) (video : MatchVideo)
  (a : Application) :
  _interrupted (_streamer a) = true ->
  stream_video W video a = (Val INTERRUPTED, a, []) /\
  popens (snd (stream_video W video a)) = [] /\
  _current_procs (_streamer (snd (fst (stream_video W video a))))
  = _current_procs (_streamer a).
Proof.
  intros H. unfold stream_video. rewrite H. repeat split.
Qed.

Lemma stream_video_when_interrupted_witness :
  stream_video (world_of run_ok) qm1 (_handle_signal (idle_app 0))
  = (Val INTERRUPTED, _handle_signal (idle_app 0), []).
Proof.
  apply (stream_video_when_interrupted (world_of run_ok) qm1
           (_handle_signal (idle_app 0))).
  reflexivity.
Defined.

Lemma deliver_other (at_ : Signal) (env : RunEnv) (a : Application) :
  run_signal env <> at_ -> deliver at_ env a = a.
Proof.
  unfold deliver. intros H.
  destruct (run_signal env), at_; simpl; congruence.
Qed.

(** C10. The classifier answers VIDEO_UNAVAILABLE, DOWNLOAD_ERROR,
    RTMP_ERROR or ENCODE_ERROR, never SUCCESS or INTERRUPTED; so a run in which
    both children started, one of them exited with a non-zero status and the
    shutdown flag was not set by the time it is tested returns the
    classifier's verdict, which is neither SUCCESS nor INTERRUPTED. *)
Theorem classify_error_never_success :
  (forall retrieval encode : list string,
      let verdict := _classify_error retrieval encode in
      (verdict = VIDEO_UNAVAILABLE \/ verdict = DOWNLOAD_ERROR \/
       verdict = RTMP_ERROR \/ verdict = ENCODE_ERROR) /\
      verdict <> SUCCESS /\ verdict <> INTERRUPTED) /\
  (forall (W : World) (video : MatchVideo) (a : Application),
      let env := pipeline W (runs (cursor a)) in
      _interrupted (_streamer a) = false ->
      run_signal env <> SigDuring ->
      ytdlp_starts env = true -> ffmpeg_starts env = true ->
      ytdlp_rc env <> 0 \/ ffmpeg_rc env <> 0 ->
      let result := fst (fst (stream_video W video a)) in
      result = Val (_classify_error (ytdlp_stderr_text env)
                                    (ffmpeg_stderr_lines env)) /\
      result <> Val SUCCESS /\ result <> Val INTERRUPTED).
Proof.
  assert (range : forall retrieval encode,
             _classify_error retrieval encode <> SUCCESS /\
             _classify_error retrieval encode <> INTERRUPTED).
  { intros r e. pose proof (classify_error_range r e) as H. cbv zeta in H.
    split; intros E; rewrite E in H;
      destruct H as [H | [H | [H | H]]]; discriminate. }
  split.
  - intros r e. cbv zeta. split; [apply classify_error_range | apply range].
  - intros W video a env Hint Hsig Hy Hf Hrc result.
    assert (E : result = Val (_classify_error (ytdlp_stderr_text env)
                                              (ffmpeg_stderr_lines env))).
    { subst result. unfold stream_video. rewrite Hint. fold env.
      rewrite Hy, Hf. cbn [andb].
      rewrite (deliver_other SigDuring) by assumption.
      cbn. rewrite Hint.
      assert (Hz : (ytdlp_rc env =? 0) && (ffmpeg_rc env =? 0) = false).
      { apply andb_false_iff. rewrite !Z.eqb_neq. assumption. }
      rewrite Hz. reflexivity. }
    rewrite E. destruct (range (ytdlp_stderr_text env) (ffmpeg_stderr_lines env)).
    repeat split; congruence.
Qed.

Lemma classify_error_never_success_witness :
  fst (fst (stream_video (world_of run_encode_fails) qm1 (idle_app 0)))
  <> Val SUCCESS.
Proof.
  apply (proj2 classify_error_never_success
           (world_of run_encode_fails) qm1 (idle_app 0)).
  - reflexivity.
  - discriminate.
  - reflexivity.
  - reflexivity.
  - right. discriminate.
Defined.

(** C3, as the code has it. When a [Popen] raises in a run that began with
    the shutdown flag clear, the run returns DOWNLOAD_ERROR whichever child
    failed to start, unless the handler has set the flag by the time the
    [except] clause tests it, in which case it returns INTERRUPTED; no
    process stays tracked. yt-dlp is always tried; ffmpeg only when yt-dlp
    started. *)
Theorem popen_failure_outcome (W : World) (video : MatchVideo)
  (a : Application) :
  let env := pipeline W (runs (cursor a)) in
  _interrupted (_streamer a) = false ->
  ytdlp_starts env && ffmpeg_starts env = false ->
  exists a' t,
    stream_video W video a
    = (Val (if Signal_eqb (run_signal env) SigDuring
            then INTERRUPTED else DOWNLOAD_ERROR), a', t) /\
    _current_procs (_streamer a') = [] /\
    popens t = if ytdlp_starts env then [Ytdlp; Ffmpeg] else [Ytdlp].
Proof.
  intros env Hint Hstart. unfold stream_video. rewrite Hint. fold env.
  rewrite Hstart. eexists. eexists. split; [|split].
  - f_equal. f_equal. f_equal. unfold deliver.
    destruct (Signal_eqb (run_signal env) SigDuring); cbn; [reflexivity|].
    now rewrite Hint.
  - unfold deliver.
    destruct (Signal_eqb (run_signal env) SigLate); reflexivity.
  - destruct (ytdlp_starts env); reflexivity.
Qed.

Lemma popen_failure_outcome_witness :
  exists a' t,
    stream_video (world_of run_ffmpeg_missing) qm1 (idle_app 0)
    = (Val DOWNLOAD_ERROR, a', t) /\
    _current_procs (_streamer a') = [] /\
    popens t = [Ytdlp; Ffmpeg].
Proof.
  apply (popen_failure_outcome (world_of run_ffmpeg_missing) qm1 (idle_app 0));
    reflexivity.
Defined.

(** C3, as the specification words it, fails: with yt-dlp started, ffmpeg
    failing to start and no shutdown requested, the run reports
    DOWNLOAD_ERROR, not ENCODE_ERROR. *)
Lemma encode_start_failure_not_encode_error :
  let env := pipeline (world_of run_ffmpeg_missing) 0 in
  let a := idle_app 0 in
  ytdlp_starts env = true /\ ffmpeg_starts env = false /\
  run_signal env = NoSignal /\ _interrupted (_streamer a) = false /\
  fst (fst (stream_video (world_of run_ffmpeg_missing) qm1 a))
  = Val DOWNLOAD_ERROR /\
  fst (fst (stream_video (world_of run_ffmpeg_missing) qm1 a))
  <> Val ENCODE_ERROR.
Proof. cbv zeta. repeat split. discriminate. Qed.

(** ** Encoder selection *)

Lemma first_available_found (available : string)
  (before after : list (string * string * list string))
  (c : string * string * list string) :
  Forall (fun c' => ~ present available c') before ->
  present available c ->
  first_available (before ++ c :: after) available
  = Some (snd (fst c), snd c).
Proof.
  intros Hb Hc. induction Hb as [|[[l e] x] before Hx Hb IH]; simpl.
  - destruct c as [[l e] x]. apply PyStrFacts.str_in_iff in Hc.
    simpl in *. now rewrite Hc.
  - destruct (PyStr.str_in e available) eqn:E; [|exact IH].
    apply PyStrFacts.str_in_iff in E. now elim Hx.
Qed.

Lemma first_available_none (available : string)
  (candidates : list (string * string * list string)) :
  Forall (fun c => ~ present available c) candidates ->
  first_available candidates available = None.
Proof.
  intros H. induction H as [|[[l e] x] r Hx Hr IH]; simpl; [reflexivity|].
  destruct (PyStr.str_in e available) eqn:E; [|exact IH].
  apply PyStrFacts.str_in_iff in E. now elim Hx.
Qed.

(** C9. With the preference "none" the selector returns libx264 with no
    extra arguments and probes nothing. Otherwise the candidates are nvenc,
    videotoolbox, vaapi in that order for "auto" and the named one alone for
    a vendor; the selector returns the first candidate whose encoder name
    occurs in the probed list, and libx264 with no extra arguments when
    ffmpeg is not found, the probe raises, or no candidate is present. *)
Theorem detect_hw_encoder_selection (w : World) (preference : string) :
  (preference = "none" ->
   _detect_hw_encoder w preference = (("libx264", []), [])) /\
  candidates_for "auto"
  = [("nvenc", "h264_nvenc", ["-preset"; "p4"]);
     ("videotoolbox", "h264_videotoolbox", []);
     ("vaapi", "h264_vaapi", [])] /\
  candidates_for "nvenc" = [("nvenc", "h264_nvenc", ["-preset"; "p4"])] /\
  candidates_for "videotoolbox"
  = [("videotoolbox", "h264_videotoolbox", [])] /\
  candidates_for "vaapi" = [("vaapi", "h264_vaapi", [])] /\
  (preference <> "none" ->
   (which_ffmpeg w = None \/ which_ffmpeg w = Some "" \/
    ffmpeg_encoders w = None ->
    fst (_detect_hw_encoder w preference) = ("libx264", [])) /\
   (forall path available,
       which_ffmpeg w = Some path -> path <> "" ->
       ffmpeg_encoders w = Some available ->
       (forall before c after,
           candidates_for preference = (before ++ c :: after)%list ->
           Forall (fun c' => ~ present available c') before ->
           present available c ->
           fst (_detect_hw_encoder w preference) = (snd (fst c), snd c)) /\
       (Forall (fun c => ~ present available c) (candidates_for preference) ->
        fst (_detect_hw_encoder w preference) = ("libx264", [])))).
Proof.
  split; [intros ->; reflexivity|].
  do 4 (split; [reflexivity|]).
  intros Hpref. apply String.eqb_neq in Hpref.
  unfold _detect_hw_encoder. rewrite Hpref. split.
  - intros [H | [H | H]].
    + now rewrite H.
    + now rewrite H.
    + rewrite H. destruct (which_ffmpeg w) as [path|]; [|reflexivity].
      now destruct (String.eqb path "").
  - intros path available Hw Hpath Hprobe.
    apply String.eqb_neq in Hpath. rewrite Hw, Hpath, Hprobe. split.
    + intros before c after Hc Hb Hp. rewrite Hc.
      now rewrite (first_available_found available before after c Hb Hp).
    + intros Hnone. now rewrite (first_available_none available _ Hnone).
Qed.

Lemma detect_hw_encoder_selection_witness :
  fst (_detect_hw_encoder (world_of run_ok) "auto") = ("h264_vaapi", []).
Proof.
  assert (Hne : "auto" <> "none") by discriminate.
  destruct (proj2 (proj2 (proj2 (proj2 (proj2
             (detect_hw_encoder_selection (world_of run_ok) "auto")))))
             Hne) as [_ Hsel].
  destruct (Hsel "/usr/bin/ffmpeg" " V....D h264_vaapi   H.264/AVC (VAAPI)"
              eq_refl ltac:(discriminate) eq_refl) as [Hfirst _].
  apply (Hfirst [("nvenc", "h264_nvenc", ["-preset"; "p4"]);
                 ("videotoolbox", "h264_videotoolbox", [])]
                ("vaapi", "h264_vaapi", []) []).
  - reflexivity.
  - repeat constructor; intros H; apply PyStrFacts.str_in_iff in H;
      discriminate.
  - apply PyStrFacts.str_in_iff. reflexivity.
Defined.

(** ** Computations *)

Lemma bind_trace {A B} (m : M A) (k : A -> M B) (a : Application) :
  exists t, snd (bind m k a) = (snd (m a) ++ t)%list.
Proof.
  unfold bind. destruct (m a) as [[[x|e|] a1] t1]; simpl.
  - destruct (k x a1) as [[r a2] t2]. now exists t2.
  - exists []. now rewrite app_nil_r.
  - exists []. now rewrite app_nil_r.
Qed.

Lemma streamed_app (t1 t2 : list Event) :
  streamed (t1 ++ t2) = (streamed t1 ++ streamed t2)%list.
Proof.
  induction t1 as [|e t1 IH]; [reflexivity|].
  destruct e; simpl; now rewrite ?IH.
Qed.

Create HintDb keeps.

Lemma keeps_ret {A} (x : A) : keeps_errors (ret x).
Proof. intros a. reflexivity. Qed.

Lemma keeps_raise {A} (e : Exn) : keeps_errors (@raise A e).
Proof. intros a. reflexivity. Qed.

Lemma keeps_out_of_fuel {A} : keeps_errors (@out_of_fuel A).
Proof. intros a. reflexivity. Qed.

Lemma keeps_emit (e : Event) : keeps_errors (emit e).
Proof. intros a. reflexivity. Qed.

Lemma keeps_get : keeps_errors get.
Proof. intros a. reflexivity. Qed.

Lemma keeps_bind {A B} (m : M A) (k : A -> M B) :
  keeps_errors m -> (forall x, keeps_errors (k x)) -> keeps_errors (bind m k).
Proof.
  intros Hm Hk a. unfold bind. specialize (Hm a).
  destruct (m a) as [[[x|e|] a1] t1]; simpl in *; try assumption.
  specialize (Hk x a1). destruct (k x a1) as [[r a2] t2]. simpl in *.
  congruence.
Qed.

Lemma keeps_try_except {A} (m handler : M A) :
  keeps_errors m -> keeps_errors handler -> keeps_errors (try_except m handler).
Proof.
  intros Hm Hh a. unfold try_except. specialize (Hm a).
  destruct (m a) as [[[x|[c|n]|] a1] t1]; simpl in *; try assumption.
  specialize (Hh a1). destruct (handler a1) as [[r a2] t2]. simpl in *.
  congruence.
Qed.

Lemma keeps_if {A} (b : bool) (m1 m2 : M A) :
  keeps_errors m1 -> keeps_errors m2 -> keeps_errors (if b then m1 else m2).
Proof. now destruct b. Qed.

Lemma keeps_stream_video (W : World) (video : MatchVideo) :
  keeps_errors (stream_video W video).
Proof.
  intros a. unfold stream_video, deliver.
  repeat match goal with
         | |- context [if ?b then _ else _] => destruct b; cbn
         end; reflexivity.
Qed.

Lemma keeps_sleep (W : World) (s : Seconds) : keeps_errors (_sleep W s).
Proof.
  intros a. unfold _sleep.
  destruct (_running a); [destruct (signal_in_sleep W _)|]; reflexivity.
Qed.

Lemma keeps_build_pool (W : World) : keeps_errors (build_pool W).
Proof.
  intros a. unfold build_pool. now destruct (tba_pool W _).
Qed.

Lemma keeps_read_monotonic (W : World) : keeps_errors (read_monotonic W).
Proof. intros a. reflexivity. Qed.

Lemma keeps_reshuffle (W : World) : keeps_errors (reshuffle W).
Proof. intros a. reflexivity. Qed.

Lemma keeps_advance_index : keeps_errors (modify advance_index).
Proof. intros a. reflexivity. Qed.

#[local] Hint Resolve keeps_ret keeps_raise keeps_out_of_fuel keeps_emit
  keeps_get keeps_bind keeps_try_except keeps_if keeps_stream_video
  keeps_sleep keeps_build_pool keeps_read_monotonic keeps_reshuffle
  keeps_advance_index : keeps.

Lemma keeps_next_video (W : World) (config : AppConfig) :
  keeps_errors (next_video W config).
Proof.
  unfold next_video.
  apply keeps_bind; [auto with keeps|]. intros _.
  apply keeps_bind; [auto with keeps|]. intros a.
  apply keeps_bind.
  - apply keeps_if; [|auto with keeps].
    apply keeps_bind; [auto with keeps|]. intros now.
    auto with keeps.
  - intros _. apply keeps_bind; [auto with keeps|]. intros a'.
    destruct (_pool (_picker a')); [auto with keeps|].
    destruct (nth_error _ _); auto with keeps.
Qed.

Lemma keeps_safe_rebuild_pool (W : World) : keeps_errors (_safe_rebuild_pool W).
Proof. unfold _safe_rebuild_pool. auto with keeps. Qed.

Lemma keeps_retry_loop (W : World) (config : AppConfig) (video : MatchVideo)
  (fuel : nat) :
  forall result retries,
    keeps_errors (retry_loop W config fuel video result retries).
Proof.
  induction fuel as [|fuel IH]; intros result retries; cbn [retry_loop].
  - auto with keeps.
  - apply keeps_bind; [auto with keeps|]. intros a.
    apply keeps_if; [|auto with keeps].
    apply keeps_bind; [auto with keeps|]. intros r.
    apply keeps_bind; [auto with keeps|]. intros _.
    apply keeps_if; [auto with keeps|].
    apply keeps_bind; [auto with keeps|]. intros _. apply IH.
Qed.

#[local] Hint Resolve keeps_next_video keeps_safe_rebuild_pool
  keeps_retry_loop : keeps.

Lemma bind_get {B} (k : Application -> M B) (a : Application) :
  bind get k a = k a a.
Proof. unfold bind, get. now destruct (k a a) as [[r a2] t2]. Qed.

Lemma bind_cases {A B} (m : M A) (k : A -> M B) (a : Application) :
  bind m k a
  = match m a with
    | (Val x, a1, t1) =>
        (fst (fst (k x a1)), snd (fst (k x a1)), (t1 ++ snd (k x a1))%list)
    | (Raised e, a1, t1) => (Raised e, a1, t1)
    | (Fuel, a1, t1) => (Fuel, a1, t1)
    end.
Proof.
  unfold bind. destruct (m a) as [[[x|e|] a1] t1]; try reflexivity.
  now destruct (k x a1) as [[r a2] t2].
Qed.

Lemma bind_then {A B} (m : M A) (k : A -> M B) (a a1 a2 : Application)
  (x : A) (r : Res B) (t1 t2 : list Event) :
  m a = (Val x, a1, t1) -> k x a1 = (r, a2, t2) ->
  bind m k a = (r, a2, (t1 ++ t2)%list).
Proof. unfold bind. now intros -> ->. Qed.

Lemma bind_val_inv {A B} (m : M A) (k : A -> M B) (a a2 : Application)
  (y : B) (t : list Event) :
  bind m k a = (Val y, a2, t) ->
  exists x a1 t1 t2,
    m a = (Val x, a1, t1) /\ k x a1 = (Val y, a2, t2) /\ t = (t1 ++ t2)%list.
Proof.
  unfold bind. destruct (m a) as [[[x|e|] a1] t1]; try discriminate.
  destruct (k x a1) as [[r a3] t2] eqn:E. intros H. injection H as -> -> <-.
  now exists x, a1, t1, t2.
Qed.

(** ** What the parts of the loop return *)

Lemma stream_video_returns (W : World) (video : MatchVideo) (a : Application) :
  exists r a1 t1,
    stream_video W video a = (Val r, a1, t1) /\ streamed t1 = [].
Proof.
  unfold stream_video.
  repeat match goal with
         | |- context [if ?b then _ else _] => destruct b
         end; do 3 eexists; split; reflexivity.
Qed.

Lemma sleep_returns (W : World) (s : Seconds) (a : Application) :
  exists a1, _sleep W s a = (Val tt, a1, [EvSleep s]).
Proof.
  unfold _sleep. destruct (_running a); eexists; reflexivity.
Qed.

Lemma retry_pause_returns (W : World) (b : bool) (s : Seconds)
  (a : Application) :
  exists a1 t1,
    (if b then _sleep W s else ret tt) a = (Val tt, a1, t1) /\ streamed t1 = [].
Proof.
  destruct b.
  - destruct (sleep_returns W s a) as [a1 E]. rewrite E. now eexists _, _.
  - now eexists _, _.
Qed.

Lemma handle_result_returns (W : World) (config : AppConfig)
  (result : StreamResult) (a : Application) :
  exists a',
    _handle_result W config result a
    = (Val tt, a',
       match result with
       | SUCCESS | INTERRUPTED | VIDEO_UNAVAILABLE => []
       | RTMP_ERROR =>
           [EvSleep (IntSec (Z.min (2 ^ (_consecutive_errors a + 1)) 120))]
       | DOWNLOAD_ERROR | ENCODE_ERROR =>
           [EvSleep (FloatSec (error_cooldown (stream config)))]
       end) /\
    _consecutive_errors a'
    = match result with
      | SUCCESS => 0
      | INTERRUPTED | VIDEO_UNAVAILABLE => _consecutive_errors a
      | DOWNLOAD_ERROR | ENCODE_ERROR | RTMP_ERROR => _consecutive_errors a + 1
      end.
Proof.
  destruct result; cbn;
    try (eexists; split; reflexivity);
    unfold bind, modify, get, _sleep; cbn;
    destruct (_running a); cbn;
    try destruct (signal_in_sleep W _); eexists; split; reflexivity.
Qed.

(** ** The retry loop *)

Section Retry.

Variable W : World.
Variable config : AppConfig.
Variable video : MatchVideo.

Local Abbreviation limit := (max_retries_per_video (stream config)).

Lemma last_cons_default {A} (x d : A) (l : list A) :
  last (x :: l) d = last l x.
Proof.
  revert x d. induction l as [|y l IH]; intros x d; [reflexivity|].
  change (last (x :: y :: l) d) with (last (y :: l) d).
  now rewrite (IH y d), (IH y x).
Qed.

Lemma retry_loop_returns (fuel : nat) :
  forall result retries a,
    (Z.to_nat (limit + 1 - retries) < fuel)%nat ->
    exists result' a' t,
      retry_loop W config fuel video result retries a = (Val result', a', t).
Proof.
  induction fuel as [|fuel IH]; intros result retries a Hfuel; [lia|].
  cbn [retry_loop]. rewrite bind_get.
  destruct ((retries <=? limit) && _running a) eqn:C; [|now eexists _, _, _].
  apply andb_true_iff in C. destruct C as [C _]. apply Z.leb_le in C.
  destruct (stream_video_returns W video a) as (r & a1 & t1 & E1 & _).
  destruct (stops_retry r) eqn:S.
  - eexists _, _, _. eapply bind_then; [exact E1|].
    eapply bind_then; [reflexivity|]. rewrite S. reflexivity.
  - destruct (retry_pause_returns W (retries + 1 <=? limit)
                (FloatSec (retry_delay (stream config))) a1)
      as (a2 & t2 & E2 & _).
    destruct (IH r (retries + 1) a2) as (r3 & a3 & t3 & E3); [lia|].
    eexists _, _, _. eapply bind_then; [exact E1|].
    eapply bind_then; [reflexivity|]. rewrite S.
    eapply bind_then; [exact E2 | exact E3].
Qed.

Lemma retry_loop_trace (fuel : nat) :
  forall result retries a result' a' t,
    retry_loop W config fuel video result retries a = (Val result', a', t) ->
    Z.of_nat (length (streamed t)) <= Z.max 0 (limit + 1 - retries) /\
    result' = last (streamed t) result /\
    (forall i r, nth_error (streamed t) i = Some r ->
                 stops_retry r = true -> S i = length (streamed t)).
Proof.
  induction fuel as [|fuel IH]; intros result retries a result' a' t H;
    [discriminate|].
  cbn [retry_loop] in H. rewrite bind_get in H.
  destruct ((retries <=? limit) && _running a) eqn:C.
  - apply andb_true_iff in C. destruct C as [C _]. apply Z.leb_le in C.
    apply bind_val_inv in H as (r & a1 & t1 & t2 & E1 & H & ->).
    destruct (stream_video_returns W video a) as (r' & a1' & t1' & E1' & Hs).
    rewrite E1 in E1'. injection E1' as <- <- <-.
    apply bind_val_inv in H as ([] & a2 & t3 & t4 & E2 & H & ->).
    injection E2 as <- <-.
    rewrite !streamed_app, Hs. cbn [streamed app].
    destruct (stops_retry r) eqn:S.
    + injection H as <- <- <-. cbn. repeat split; [lia|].
      intros [|[|i]] r'; cbn; intros; congruence.
    + apply bind_val_inv in H as ([] & a3 & t5 & t6 & E3 & H & ->).
      destruct (retry_pause_returns W (retries + 1 <=? limit)
                  (FloatSec (retry_delay (stream config))) a1)
        as (a3' & t5' & E3' & Hp).
      rewrite E3 in E3'. injection E3' as <- <-.
      rewrite streamed_app, Hp. cbn [app].
      destruct (IH _ _ _ _ _ _ H) as (Hlen & Hlast & Hstop).
      repeat split.
      * cbn [length]. lia.
      * rewrite last_cons_default. exact Hlast.
      * intros [|i] r'; cbn [nth_error length].
        -- intros E Hr. injection E as <-. congruence.
        -- intros E Hr. f_equal. now apply (Hstop i r').
  - injection H as <- <- <-. cbn. repeat split; [lia|].
    intros [|i] r; discriminate.
Qed.

End Retry.

(** C2. With a non-negative [max_retries_per_video] and fuel for the loop to
    finish, the retry loop of an item returns; it has invoked the pipeline at
    most [max_retries_per_video + 1] times; an invocation that returned
    SUCCESS, INTERRUPTED or VIDEO_UNAVAILABLE is the last one; and the loop's
    result is the outcome of the last invocation. With a limit of 2 and three
    ENCODE_ERROR outcomes in a row there are exactly three invocations, the
    result is ENCODE_ERROR, and [_handle_result] then adds exactly 1 to
    [_consecutive_errors] and calls [_sleep] once, with [error_cooldown]. *)
Theorem retry_loop_bound (W : World) (config : AppConfig)
  (video : MatchVideo) (a : Application) (fuel : nat) :
  0 <= max_retries_per_video (stream config) ->
  (Z.to_nat (max_retries_per_video (stream config) + 1) < fuel)%nat ->
  exists result a1 t,
    retry_loop W config fuel video INTERRUPTED 0 a = (Val result, a1, t) /\
    Z.of_nat (length (streamed t))
    <= max_retries_per_video (stream config) + 1 /\
    (forall i r, nth_error (streamed t) i = Some r ->
                 r = SUCCESS \/ r = INTERRUPTED \/ r = VIDEO_UNAVAILABLE ->
                 S i = length (streamed t)) /\
    result = last (streamed t) INTERRUPTED /\
    (max_retries_per_video (stream config) = 2 ->
     forall more,
       streamed t = ENCODE_ERROR :: ENCODE_ERROR :: ENCODE_ERROR :: more ->
       streamed t = [ENCODE_ERROR; ENCODE_ERROR; ENCODE_ERROR] /\
       result = ENCODE_ERROR /\
       exists a2,
         _handle_result W config result a1
         = (Val tt, a2,
            [EvSleep (FloatSec (error_cooldown (stream config)))]) /\
         _consecutive_errors a2 = _consecutive_errors a + 1).
Proof.
  intros Hlimit Hfuel.
  destruct (retry_loop_returns W config video fuel INTERRUPTED 0 a)
    as (result & a1 & t & E); [now rewrite Z.sub_0_r|].
  exists result, a1, t. split; [exact E|].
  destruct (retry_loop_trace W config video fuel _ _ _ _ _ _ E)
    as (Hlen & Hlast & Hstop).
  split; [lia|]. split; [|split; [exact Hlast|]].
  - intros i r Hi Hr. apply (Hstop i r Hi).
    destruct Hr as [-> | [-> | ->]]; reflexivity.
  - intros Htwo more Hthree. rewrite Htwo in Hlen.
    assert (Hmore : more = []).
    { rewrite Hthree in Hlen. cbn [length] in Hlen.
      destruct more; [reflexivity | cbn [length] in Hlen; lia]. }
    subst more. split; [exact Hthree|].
    assert (Hres : result = ENCODE_ERROR) by (now rewrite Hlast, Hthree).
    split; [exact Hres|]. rewrite Hres.
    destruct (handle_result_returns W config ENCODE_ERROR a1) as (a2 & E2 & Hc).
    exists a2. split; [exact E2|]. rewrite Hc.
    pose proof (keeps_retry_loop W config video fuel INTERRUPTED 0 a) as K.
    rewrite E in K. cbn in K. now rewrite K.
Qed.

Lemma retry_loop_bound_witness :
  exists result a1 t a2,
    retry_loop (world_of run_encode_fails) default_config 5 qm1
      INTERRUPTED 0 (idle_app 0) = (Val result, a1, t) /\
    streamed t = [ENCODE_ERROR; ENCODE_ERROR; ENCODE_ERROR] /\
    result = ENCODE_ERROR /\
    _handle_result (world_of run_encode_fails) default_config result a1
    = (Val tt, a2, [EvSleep (FloatSec 10)]) /\
    _consecutive_errors a2 = 1.
Proof.
  destruct (retry_loop_bound (world_of run_encode_fails) default_config qm1
              (idle_app 0) 5) as (result & a1 & t & E & _ & _ & _ & Hscen).
  - cbn. lia.
  - cbn. lia.
  - destruct (Hscen eq_refl []) as (H3 & Hr & a2 & E2 & Hc).
    + vm_compute in E. injection E as _ _ <-. reflexivity.
    + exists result, a1, t, a2. repeat split; assumption.
Defined.

(** ** The counter of consecutive errors *)

Lemma handle_result_counter_ok (W : World) (config : AppConfig)
  (result : StreamResult) (a : Application) :
  0 <= _consecutive_errors a < 10 ->
  counter_ok (snd (fst (_handle_result W config result a))).
Proof.
  intros H. destruct (handle_result_returns W config result a) as (a' & E & Hc).
  rewrite E. unfold counter_ok. cbn [fst snd]. rewrite Hc.
  destruct result; lia.
Qed.

Lemma iteration_counter_ok (W : World) (config : AppConfig) (fuel : nat)
  (a : Application) :
  counter_ok a -> counter_ok (snd (fst (iteration W config fuel a))).
Proof.
  intros Hok. unfold iteration. rewrite bind_get.
  unfold CIRCUIT_BREAKER_THRESHOLD.
  destruct (10 <=? _consecutive_errors a) eqn:C.
  - destruct (sleep_returns W (FloatSec CIRCUIT_BREAKER_PAUSE) a) as [a1 E].
    unfold bind. rewrite E. unfold counter_ok. cbn. lia.
  - apply Z.leb_gt in C.
    pose proof (keeps_next_video W config a) as K1.
    unfold bind at 1. destruct (next_video W config a) as [[[v|e|] a1] t1];
      cbn [fst snd] in K1; cbn [fst snd];
      try (unfold counter_ok in *; lia).
    destruct v as [v|].
    + pose proof (keeps_retry_loop W config v fuel INTERRUPTED 0 a1) as K2.
      unfold bind at 1.
      destruct (retry_loop W config fuel v INTERRUPTED 0 a1)
        as [[[r|e|] a2] t2]; cbn [fst snd] in K2; cbn [fst snd];
        try (unfold counter_ok in *; lia).
      pose proof (handle_result_counter_ok W config r a2) as K3.
      destruct (_handle_result W config r a2) as [[r3 a3] t3].
      cbn [fst snd] in *. apply K3. unfold counter_ok in Hok. lia.
    + assert (K2 : keeps_errors (_sleep W (IntSec 60) ;; _safe_rebuild_pool W))
        by auto with keeps.
      specialize (K2 a1).
      destruct ((_sleep W (IntSec 60) ;; _safe_rebuild_pool W) a1)
        as [[r2 a2] t2]. cbn [fst snd] in *. unfold counter_ok in *. lia.
Qed.

Lemma main_loop_counter_ok (W : World) (config : AppConfig) (fuel : nat) :
  forall a, counter_ok a -> counter_ok (snd (fst (main_loop W config fuel a))).
Proof.
  induction fuel as [|fuel IH]; intros a Hok; [exact Hok|].
  cbn [main_loop]. rewrite bind_get. destruct (_running a); [|exact Hok].
  pose proof (iteration_counter_ok W config fuel a Hok) as K.
  unfold bind. destruct (iteration W config fuel a) as [[[[]|e|] a1] t1];
    cbn [fst snd] in *; try exact K.
  specialize (IH a1 K). destruct (main_loop W config fuel a1) as [[r a2] t2].
  exact IH.
Qed.

Lemma main_counter_ok (W : World) (config : AppConfig) (fuel : nat) :
  counter_ok (snd (fst (main W config fuel))).
Proof.
  unfold main, Application_init.
  destruct (_detect_hw_encoder W (hw_accel (stream config)))
    as [[encoder extra_args] events].
  set (app := {| _picker := _; _streamer := _; _running := true;
                 _consecutive_errors := 0; cursor := _ |}).
  assert (Hok : counter_ok app) by (unfold counter_ok; cbn; lia).
  assert (K : counter_ok (snd (fst (run W config fuel app)))).
  { unfold run.
    assert (K1 : keeps_errors (try_except (build_pool W) (raise (SystemExit 1))))
      by auto with keeps.
    specialize (K1 app). unfold bind.
    destruct (try_except (build_pool W) (raise (SystemExit 1)) app)
      as [[[n|e|] a1] t1]; cbn [fst snd] in *;
      try (unfold counter_ok in *; lia).
    assert (Hok1 : counter_ok a1) by (unfold counter_ok in *; lia).
    destruct (n =? 0)%nat.
    - cbn. exact Hok1.
    - pose proof (main_loop_counter_ok W config fuel a1 Hok1) as K2.
      destruct (main_loop W config fuel a1) as [[r a2] t2]. exact K2. }
  destruct (run W config fuel app) as [[r a2] t2]. exact K.
Qed.

Lemma next_video_trace (W : World) (config : AppConfig) (a : Application) :
  exists t, snd (next_video W config a) = EvNextVideo :: t /\ streamed t = [].
Proof.
  unfold next_video, bind, emit, get, read_monotonic, build_pool, reshuffle,
    modify, ret, raise.
  cbn.
  repeat match goal with
         | |- context [if ?b then _ else _] => destruct b; cbn
         | |- context [match tba_pool ?w ?k with _ => _ end] =>
             destruct (tba_pool w k); cbn
         | |- context [match nth_error ?l ?i with _ => _ end] =>
             destruct (nth_error l i); cbn
         | |- context [match _pool ?p with _ => _ end] =>
             destruct (_pool p); cbn
         end;
    eexists; split; reflexivity.
Qed.

Lemma iteration_reset_needs_success (W : World) (config : AppConfig)
  (fuel : nat) (a : Application) :
  0 < _consecutive_errors a < 10 ->
  _consecutive_errors (snd (fst (iteration W config fuel a))) = 0 ->
  last (streamed (snd (iteration W config fuel a))) INTERRUPTED = SUCCESS.
Proof.
  intros Hpos. unfold iteration. rewrite bind_get.
  unfold CIRCUIT_BREAKER_THRESHOLD.
  destruct (10 <=? _consecutive_errors a) eqn:C; [apply Z.leb_le in C; lia|].
  pose proof (keeps_next_video W config a) as K1.
  destruct (next_video_trace W config a) as (t & Ht & Hs).
  rewrite bind_cases.
  destruct (next_video W config a) as [[[v|e|] a1] t1];
    cbn [fst snd] in *; try lia.
  destruct v as [v|].
  - pose proof (keeps_retry_loop W config v fuel INTERRUPTED 0 a1) as K2.
    rewrite bind_cases.
    destruct (retry_loop W config fuel v INTERRUPTED 0 a1)
      as [[[r|e|] a2] t2] eqn:E2; cbn [fst snd] in *; try lia.
    destruct (handle_result_returns W config r a2) as (a3 & E3 & Hc).
    rewrite E3. cbn [fst snd]. rewrite Hc. intros H0.
    destruct r; try lia.
    rewrite !streamed_app, Ht. cbn [streamed app]. rewrite Hs, app_nil_r.
    cbn [app].
    now destruct (retry_loop_trace W config v fuel _ _ _ _ _ _ E2)
      as (_ & <- & _).
  - assert (K2 : keeps_errors (_sleep W (IntSec 60) ;; _safe_rebuild_pool W))
      by auto with keeps.
    specialize (K2 a1).
    destruct ((_sleep W (IntSec 60) ;; _safe_rebuild_pool W) a1)
      as [[r2 a2] t2]. cbn [fst snd] in *. lia.
Qed.

(** C5. [_handle_result] sets [_consecutive_errors] to 0 on SUCCESS, leaves
    it as it is on INTERRUPTED and VIDEO_UNAVAILABLE, and adds exactly 1 on
    DOWNLOAD_ERROR, ENCODE_ERROR and RTMP_ERROR. A loop iteration below the
    circuit-breaker threshold that brings a positive counter to 0 ended its
    item on SUCCESS; and the counter is never negative in a run of the
    program. *)
Theorem consecutive_errors_update (W : World) (config : AppConfig) :
  (forall (result : StreamResult) (a : Application),
      let a' := snd (fst (_handle_result W config result a)) in
      (result = SUCCESS -> _consecutive_errors a' = 0) /\
      (result = INTERRUPTED \/ result = VIDEO_UNAVAILABLE ->
       _consecutive_errors a' = _consecutive_errors a) /\
      (is_failure result ->
       _consecutive_errors a' = _consecutive_errors a + 1) /\
      (result = SUCCESS \/ result = INTERRUPTED \/
       result = VIDEO_UNAVAILABLE \/ is_failure result)) /\
  (forall (fuel : nat) (a : Application),
      0 < _consecutive_errors a < CIRCUIT_BREAKER_THRESHOLD ->
      _consecutive_errors (snd (fst (iteration W config fuel a))) = 0 ->
      last (streamed (snd (iteration W config fuel a))) INTERRUPTED
      = SUCCESS) /\
  (forall fuel : nat,
      0 <= _consecutive_errors (snd (fst (main W config fuel)))).
Proof.
  split; [|split].
  - intros result a.
    destruct (handle_result_returns W config result a) as (a' & E & Hc).
    rewrite E. cbn [fst snd]. rewrite Hc. unfold is_failure.
    repeat split.
    + now intros ->.
    + now intros [-> | ->].
    + now intros [-> | [-> | ->]].
    + destruct result; auto 10.
  - intros fuel a. apply iteration_reset_needs_success.
  - intros fuel. apply main_counter_ok.
Qed.

Lemma consecutive_errors_update_witness :
  _consecutive_errors
    (snd (fst (_handle_result (world_of run_ok) default_config SUCCESS
                 (idle_app 3)))) = 0 /\
  _consecutive_errors
    (snd (fst (_handle_result (world_of run_ok) default_config ENCODE_ERROR
                 (idle_app 3)))) = 4.
Proof.
  pose proof (consecutive_errors_update (world_of run_ok) default_config)
    as [H _].
  split.
  - apply (H SUCCESS (idle_app 3)). reflexivity.
  - apply (H ENCODE_ERROR (idle_app 3)). right. left. reflexivity.
Defined.

(** C6. The circuit breaker fires exactly when [_consecutive_errors] has
    reached the threshold, 10, at the top of an iteration: the iteration then
    consists of the one cancellable pause of [CIRCUIT_BREAKER_PAUSE] seconds,
    pulls no video, and ends with the counter at 0; below the threshold the
    iteration starts by pulling a video. The counter never exceeds the
    threshold in a run of the program, so it is equal to it when the breaker
    fires. *)
Theorem circuit_breaker_fires (W : World) (config : AppConfig) (fuel : nat)
  (a : Application) :
  CIRCUIT_BREAKER_THRESHOLD = 10 /\
  CIRCUIT_BREAKER_PAUSE = 60%Q /\
  (CIRCUIT_BREAKER_THRESHOLD <= _consecutive_errors a ->
   exists a',
     iteration W config fuel a
     = (Val tt, a', [EvSleep (FloatSec CIRCUIT_BREAKER_PAUSE)]) /\
     _consecutive_errors a' = 0) /\
  (_consecutive_errors a < CIRCUIT_BREAKER_THRESHOLD ->
   exists t, snd (iteration W config fuel a) = EvNextVideo :: t) /\
  (forall n : nat,
      _consecutive_errors (snd (fst (main W config n)))
      <= CIRCUIT_BREAKER_THRESHOLD).
Proof.
  split; [reflexivity|]. split; [reflexivity|]. split; [|split].
  - intros H. unfold iteration. rewrite bind_get.
    apply Z.leb_le in H. rewrite H.
    destruct (sleep_returns W (FloatSec CIRCUIT_BREAKER_PAUSE) a) as [a1 E].
    unfold bind. rewrite E. cbn. eexists. split; reflexivity.
  - intros H. unfold iteration. rewrite bind_get.
    apply Z.leb_gt in H. rewrite H.
    destruct (next_video_trace W config a) as (t & Ht & _).
    match goal with
    | |- context [bind ?m ?k a] => destruct (bind_trace m k a) as [t' E]
    end.
    rewrite E, Ht. now exists (t ++ t')%list.
  - intros n. apply main_counter_ok.
Qed.

Lemma circuit_breaker_fires_witness :
  exists a',
    iteration (world_of run_ok) default_config 5 (idle_app 10)
    = (Val tt, a', [EvSleep (FloatSec 60)]) /\
    _consecutive_errors a' = 0.
Proof.
  apply (circuit_breaker_fires (world_of run_ok) default_config 5
           (idle_app 10)).
  unfold CIRCUIT_BREAKER_THRESHOLD. cbn. lia.
Defined.

(** C7. With a non-negative counter, an RTMP_ERROR makes [_handle_result]
    add 1 to [_consecutive_errors] and then call [_sleep] once for
    [min(2 ** _consecutive_errors, 120)] seconds, the exponent being the
    counter after the addition; a DOWNLOAD_ERROR or ENCODE_ERROR makes it
    call [_sleep] once for the configured [error_cooldown]. With 5 errors
    before an RTMP_ERROR the pause is 64 seconds. *)
Theorem rtmp_backoff (W : World) (config : AppConfig) (a : Application) :
  0 <= _consecutive_errors a ->
  (exists a',
      _handle_result W config RTMP_ERROR a
      = (Val tt, a',
         [EvSleep (IntSec (Z.min (2 ^ _consecutive_errors a') 120))]) /\
      _consecutive_errors a' = _consecutive_errors a + 1) /\
  (forall result,
      result = DOWNLOAD_ERROR \/ result = ENCODE_ERROR ->
      snd (_handle_result W config result a)
      = [EvSleep (FloatSec (error_cooldown (stream config)))]) /\
  (_consecutive_errors a = 5 ->
   snd (_handle_result W config RTMP_ERROR a) = [EvSleep (IntSec 64)]).
Proof.
  intros _. split; [|split].
  - destruct (handle_result_returns W config RTMP_ERROR a) as (a' & E & Hc).
    exists a'. rewrite Hc. split; [exact E | reflexivity].
  - intros result Hr.
    destruct (handle_result_returns W config result a) as (a' & E & _).
    rewrite E. now destruct Hr as [-> | ->].
  - intros H5.
    destruct (handle_result_returns W config RTMP_ERROR a) as (a' & E & _).
    rewrite E, H5. reflexivity.
Qed.

Lemma rtmp_backoff_witness :
  snd (_handle_result (world_of run_ok) default_config RTMP_ERROR (idle_app 5))
  = [EvSleep (IntSec 64)].
Proof.
  apply (rtmp_backoff (world_of run_ok) default_config (idle_app 5)).
  - cbn. lia.
  - reflexivity.
Defined.

(** ** How the loop can end *)








(** ** Exit status *)

(** C4 does not hold of the code. Startup succeeds with a pool of one video,
    the video streams to the end, the pool is then exhausted with its TTL
    expired, and the [build_pool] that [next_video] calls meets a TBA
    outage: the exception leaves [run] and the process ends with status 1,
    with [_running] still set. *)
Theorem tba_outage_after_startup (n : nat) :
  let outcome := main world_tba_outage default_config (3 + n) in
  fst (fst outcome) = Raised (PyException "requests.RequestException") /\
  exit_status (fst (fst outcome)) = Some 1 /\
  _running (snd (fst outcome)) = true /\
  snd outcome
  = [EvWhich; EvProbe; EvBuildPool;
     EvNextVideo; EvPopen Ytdlp true; EvPopen Ffmpeg true;
     EvStreamed qm1 SUCCESS;
     EvNextVideo; EvBuildPool].
Proof. cbv zeta. repeat split. Qed.

(* ================================================================== *)
(** * Further properties of the code *)

(** ** [Application.run] as a whole *)



(** ** [VideoPicker.next_video] *)

Lemma next_video_within (W : World) (config : AppConfig) (a : Application)
  (v : MatchVideo) :
  nth_error (_pool (_picker a)) (_index (_picker a)) = Some v ->
  next_video W config a = (Val (Some v), advance_index a, [EvNextVideo]).
Proof.
  intros Hv.
  assert (Hlt : (_index (_picker a) < length (_pool (_picker a)))%nat).
  { apply nth_error_Some. congruence. }
  apply Nat.leb_gt in Hlt.
  unfold next_video, bind, emit, get, modify, ret. cbn.
  rewrite Hlt. cbn.
  destruct (_pool (_picker a)) as [|x pool] eqn:P; [discriminate|].
  rewrite Hv. reflexivity.
Qed.

(** X2. What [next_video] returns is the video at the index it has just
    stepped over, so a member of the pool as it now stands; it returns
    [None] only when that pool is empty. *)
Theorem next_video_result (W : World) (config : AppConfig)
  (a a' : Application) (r : option MatchVideo) (t : list Event) :
  next_video W config a = (Val r, a', t) ->
  match r with
  | Some v =>
      (1 <= _index (_picker a') <= length (_pool (_picker a')))%nat /\
      nth_error (_pool (_picker a')) (pred (_index (_picker a'))) = Some v /\
      In v (_pool (_picker a'))
  | None => _pool (_picker a') = []
  end.
Proof.
  unfold next_video, bind, emit, get, read_monotonic, build_pool, reshuffle,
    modify, ret, raise.
  cbn.
  destruct (length (_pool (_picker a)) <=? _index (_picker a))%nat eqn:L; cbn.
  - destruct (Qle_bool _ _); cbn.
    + destruct (tba_pool W _) as [[|v videos]|]; cbn; try discriminate.
      * intros [= <- <- <-]. reflexivity.
      * intros [= <- <- <-]. cbn. repeat split; auto with arith.
    + destruct (shuffle W _ _) as [|v pool] eqn:S; cbn.
      * intros [= <- <- <-]. reflexivity.
      * intros [= <- <- <-]. cbn. repeat split; auto with arith.
  - apply Nat.leb_gt in L.
    destruct (_pool (_picker a)) as [|v pool] eqn:P; cbn.
    + intros [= <- <- <-]. exact P.
    + destruct (nth_error (v :: pool) (_index (_picker a))) as [x|] eqn:N;
        cbn; [|discriminate].
      intros [= <- <- <-]. cbn. rewrite P. cbn [length] in *.
      repeat split; try lia; [exact N | now apply nth_error_In in N].
Qed.

Lemma next_video_result_witness :
  In qm1 (_pool (_picker (advance_index
                            (set_picker {| _pool := [qm1]; _index := 0;
                                           _pool_built_at := 0 |}
                                        (idle_app 0))))).
Proof.
  apply (next_video_result (world_of run_ok) default_config
           (set_picker {| _pool := [qm1]; _index := 0; _pool_built_at := 0 |}
                       (idle_app 0))
           _ (Some qm1) [EvNextVideo]).
  reflexivity.
Defined.

Lemma skipn_nth_error {A} (l : list A) :
  forall i v, nth_error l i = Some v -> skipn i l = v :: skipn (S i) l.
Proof.
  induction l as [|x l IH]; intros [|i] v H; try discriminate.
  - now injection H as ->.
  - cbn in H. now rewrite skipn_cons, (IH i v H).
Qed.

(** X3. From index [i], the next [k] calls of [next_video] that stay within
    the pool return its videos [i], [i+1], ... in order, each once, and
    consult neither the clock, TBA nor the shuffle. *)
Theorem next_videos_in_order (W : World) (config : AppConfig) (k : nat) :
  forall a,
    (_index (_picker a) + k <= length (_pool (_picker a)))%nat ->
    next_videos W config k a
    = (Val (map Some (firstn k (skipn (_index (_picker a))
                                      (_pool (_picker a))))),
       set_picker {| _pool := _pool (_picker a);
                     _index := _index (_picker a) + k;
                     _pool_built_at := _pool_built_at (_picker a) |} a,
       repeat EvNextVideo k).
Proof.
  induction k as [|k IH]; intros a Hk.
  - destruct a as [[pool i built] s r e c]. cbn. now rewrite Nat.add_0_r.
  - cbn [next_videos].
    destruct (nth_error (_pool (_picker a)) (_index (_picker a)))
      as [v|] eqn:N; [|apply nth_error_None in N; lia].
    rewrite bind_cases, (next_video_within W config a v N).
    cbn [fst snd].
    rewrite bind_cases, (IH (advance_index a)) by (cbn; lia).
    rewrite (skipn_nth_error _ _ _ N).
    destruct a as [[pool i built] s r e c]. cbn.
    now rewrite Nat.add_succ_r, app_nil_r.
Qed.

Lemma next_videos_in_order_witness :
  fst (fst (next_videos (world_of run_ok) default_config 1
              (set_picker {| _pool := [qm1]; _index := 0;
                             _pool_built_at := 0 |} (idle_app 0))))
  = Val [Some qm1].
Proof.
  rewrite (next_videos_in_order (world_of run_ok) default_config 1).
  - reflexivity.
  - cbn. lia.
Defined.

(** X4. [next_video] calls [build_pool] exactly when the pool is exhausted
    and at least [cache_ttl] seconds have passed since it was built, and then
    once; it can raise only there, with the exception of the TBA request.
    Exhausted within the TTL, the pool is reshuffled and TBA is left alone. *)
Theorem next_video_rebuilds_on_expiry (W : World) (config : AppConfig)
  (a : Application) :
  let exhausted :=
    (length (_pool (_picker a)) <=? _index (_picker a))%nat in
  let expired :=
    Qle_bool (inject_Z (cache_ttl (tba config)))
             (monotonic W (clock_reads (cursor a))
              - _pool_built_at (_picker a))%Q in
  let outcome := next_video W config a in
  rebuilds (snd outcome) = (if exhausted && expired then 1 else 0)%nat /\
  (forall e, fst (fst outcome) = Raised e ->
             exhausted && expired = true /\
             tba_pool W (builds (cursor a)) = None /\ e = tba_error) /\
  (exhausted = true -> expired = false ->
   _pool (_picker (snd (fst outcome)))
   = shuffle W (shuffles (cursor a)) (_pool (_picker a)) /\
   builds (cursor (snd (fst outcome))) = builds (cursor a)).
Proof.
  cbv zeta.
  unfold next_video, bind, emit, get, read_monotonic, build_pool, reshuffle,
    modify, ret, raise.
  cbn.
  destruct (length (_pool (_picker a)) <=? _index (_picker a))%nat eqn:L; cbn.
  - destruct (Qle_bool _ _); cbn.
    + destruct (tba_pool W _) as [[|v videos]|]; cbn;
        repeat split; try discriminate; congruence.
    + destruct (shuffle W _ _) as [|v pool] eqn:S; cbn;
        repeat split; discriminate.
  - apply Nat.leb_gt in L.
    destruct (_pool (_picker a)) as [|v pool] eqn:P; cbn;
      [repeat split; discriminate|].
    destruct (nth_error (v :: pool) (_index (_picker a))) eqn:N; cbn;
      [repeat split; discriminate|].
    apply nth_error_None in N. lia.
Qed.

Lemma next_video_rebuilds_on_expiry_witness :
  tba_pool world_tba_outage (builds (cursor (idle_app 0))) = None.
Proof.
  destruct (proj1 (proj2 (next_video_rebuilds_on_expiry world_tba_outage
                            default_config (idle_app 0)))
              tba_error eq_refl) as (_ & H & _).
  exact H.
Defined.

(** ** The shutdown flags *)

Create HintDb flags.

Lemma flags_ret {A} (x : A) : keeps_flags (ret x).
Proof. intros a H. exact H. Qed.

Lemma flags_raise {A} (e : Exn) : keeps_flags (@raise A e).
Proof. intros a H. exact H. Qed.

Lemma flags_out_of_fuel {A} : keeps_flags (@out_of_fuel A).
Proof. intros a H. exact H. Qed.

Lemma flags_emit (e : Event) : keeps_flags (emit e).
Proof. intros a H. exact H. Qed.

Lemma flags_get : keeps_flags get.
Proof. intros a H. exact H. Qed.

Lemma flags_bind {A B} (m : M A) (k : A -> M B) :
  keeps_flags m -> (forall x, keeps_flags (k x)) -> keeps_flags (bind m k).
Proof.
  intros Hm Hk a H. rewrite bind_cases. specialize (Hm a H).
  destruct (m a) as [[[x|e|] a1] t1]; cbn [fst snd] in *; try exact Hm.
  exact (Hk x a1 Hm).
Qed.

Lemma flags_try_except {A} (m handler : M A) :
  keeps_flags m -> keeps_flags handler -> keeps_flags (try_except m handler).
Proof.
  intros Hm Hh a H. unfold try_except. specialize (Hm a H).
  destruct (m a) as [[[x|[c|n]|] a1] t1]; cbn [fst snd] in *; try exact Hm.
  specialize (Hh a1 Hm). now destruct (handler a1) as [[r a2] t2].
Qed.

Lemma flags_if {A} (b : bool) (m1 m2 : M A) :
  keeps_flags m1 -> keeps_flags m2 -> keeps_flags (if b then m1 else m2).
Proof. now destruct b. Qed.

Lemma flags_handle_signal (a : Application) :
  flags_in_step (_handle_signal a).
Proof. split; reflexivity. Qed.

Lemma flags_stream_video (W : World) (video : MatchVideo) :
  keeps_flags (stream_video W video).
Proof.
  intros a [Hi Hp]. unfold stream_video, deliver.
  destruct (_interrupted (_streamer a)) eqn:I;
    [split; cbn; [congruence | exact Hp]|].
  repeat match goal with
         | |- context [if ?b then _ else _] => destruct b; cbn
         end; split; cbn; try reflexivity; congruence.
Qed.

Lemma flags_sleep (W : World) (s : Seconds) : keeps_flags (_sleep W s).
Proof.
  intros a H. unfold _sleep.
  destruct (_running a); [|exact H].
  destruct (signal_in_sleep W _); cbn; [apply flags_handle_signal | exact H].
Qed.

Lemma flags_build_pool (W : World) : keeps_flags (build_pool W).
Proof.
  intros a H. unfold build_pool. now destruct (tba_pool W _).
Qed.

Lemma flags_read_monotonic (W : World) : keeps_flags (read_monotonic W).
Proof. intros a H. exact H. Qed.

Lemma flags_reshuffle (W : World) : keeps_flags (reshuffle W).
Proof. intros a H. exact H. Qed.

Lemma flags_advance_index : keeps_flags (modify advance_index).
Proof. intros a H. exact H. Qed.

Lemma flags_set_errors (f : Application -> Z) :
  keeps_flags (modify (fun a => set_consecutive_errors (f a) a)).
Proof. intros a H. exact H. Qed.

#[local] Hint Resolve flags_ret flags_raise flags_out_of_fuel flags_emit
  flags_get flags_bind flags_try_except flags_if flags_stream_video
  flags_sleep flags_build_pool flags_read_monotonic flags_reshuffle
  flags_advance_index flags_set_errors : flags.

Lemma flags_next_video (W : World) (config : AppConfig) :
  keeps_flags (next_video W config).
Proof.
  unfold next_video.
  apply flags_bind; [auto with flags|]. intros _.
  apply flags_bind; [auto with flags|]. intros a.
  apply flags_bind.
  - apply flags_if; [|auto with flags].
    apply flags_bind; [auto with flags|]. intros now.
    auto with flags.
  - intros _. apply flags_bind; [auto with flags|]. intros a'.
    destruct (_pool (_picker a')); [auto with flags|].
    destruct (nth_error _ _); auto with flags.
Qed.

Lemma flags_handle_result (W : World) (config : AppConfig)
  (result : StreamResult) : keeps_flags (_handle_result W config result).
Proof.
  unfold _handle_result.
  apply flags_if; [apply (flags_set_errors (fun _ => 0))|].
  apply flags_if; [auto with flags|].
  apply flags_if; [auto with flags|].
  apply flags_bind;
    [apply (flags_set_errors (fun a => _consecutive_errors a + 1))|].
  intros _. apply flags_if; [|auto with flags].
  apply flags_bind; [auto with flags|]. intros a. auto with flags.
Qed.

Lemma flags_retry_loop (W : World) (config : AppConfig) (video : MatchVideo)
  (fuel : nat) :
  forall result retries,
    keeps_flags (retry_loop W config fuel video result retries).
Proof.
  induction fuel as [|fuel IH]; intros result retries; cbn [retry_loop].
  - auto with flags.
  - apply flags_bind; [auto with flags|]. intros a.
    apply flags_if; [|auto with flags].
    apply flags_bind; [auto with flags|]. intros r.
    apply flags_bind; [auto with flags|]. intros _.
    apply flags_if; [auto with flags|].
    apply flags_bind; [auto with flags|]. intros _. apply IH.
Qed.

Lemma flags_iteration (W : World) (config : AppConfig) (fuel : nat) :
  keeps_flags (iteration W config fuel).
Proof.
  unfold iteration. apply flags_bind; [auto with flags|]. intros a.
  apply flags_if.
  - apply flags_bind; [auto with flags|]. intros _.
    apply (flags_set_errors (fun _ => 0)).
  - apply flags_bind; [apply flags_next_video|]. intros [v|].
    + apply flags_bind; [apply flags_retry_loop|]. intros r.
      apply flags_handle_result.
    + unfold _safe_rebuild_pool. auto with flags.
Qed.

Lemma flags_main_loop (W : World) (config : AppConfig) (fuel : nat) :
  keeps_flags (main_loop W config fuel).
Proof.
  induction fuel as [|fuel IH]; cbn [main_loop]; [auto with flags|].
  apply flags_bind; [auto with flags|]. intros a.
  apply flags_if; [|auto with flags].
  apply flags_bind; [apply flags_iteration | intros _; exact IH].
Qed.

(** X5. However far a run of the program has got, the streamer's
    [_interrupted] is set exactly when the application's [_running] is
    cleared, and no child process is left in [_current_procs] between two
    pipeline runs. *)
Theorem main_keeps_flags_in_step (W : World) (config : AppConfig)
  (fuel : nat) :
  let a := snd (fst (main W config fuel)) in
  _interrupted (_streamer a) = negb (_running a) /\
  _current_procs (_streamer a) = [].
Proof.
  cbv zeta. change (flags_in_step (snd (fst (main W config fuel)))).
  unfold main, Application_init.
  destruct (_detect_hw_encoder W (hw_accel (stream config)))
    as [[encoder extra_args] events].
  match goal with
  | |- context [run W config fuel ?app] =>
      assert (K : flags_in_step (snd (fst (run W config fuel app))));
      [|now destruct (run W config fuel app) as [[r a2] t2]]
  end.
  assert (Hrun : keeps_flags (run W config fuel)).
  { unfold run. apply flags_bind; [auto with flags|]. intros n.
    apply flags_if; [auto with flags | apply flags_main_loop]. }
  apply Hrun. split; reflexivity.
Qed.

(** ** More on the retry loop and the back-off *)

Lemma slept_app (t1 t2 : list Event) :
  slept (t1 ++ t2) = (slept t1 ++ slept t2)%list.
Proof.
  induction t1 as [|e t1 IH]; [reflexivity|].
  destruct e; simpl; now rewrite ?IH.
Qed.

Lemma stream_video_running (W : World) (video : MatchVideo)
  (a a1 : Application) (r : StreamResult) (t1 : list Event) :
  stream_video W video a = (Val r, a1, t1) ->
  slept t1 = [] /\ (_running a1 = true -> _running a = true).
Proof.
  unfold stream_video, deliver.
  repeat match goal with
         | |- context [if ?b then _ else _] => destruct b; cbn
         end; intros [= <- <- <-]; split; cbn; auto; discriminate.
Qed.

Lemma sleep_running (W : World) (s : Seconds) (a a1 : Application)
  (t1 : list Event) :
  _sleep W s a = (Val tt, a1, t1) ->
  t1 = [EvSleep s] /\ (_running a1 = true -> _running a = true).
Proof.
  unfold _sleep. destruct (_running a) eqn:R.
  - intros [= <- <-]. auto.
  - intros [= <- <-]. split; [reflexivity | congruence].
Qed.

Lemma retry_loop_exhausts (W : World) (config : AppConfig)
  (video : MatchVideo) (fuel : nat) :
  forall result retries a result' a' t,
    retry_loop W config fuel video result retries a = (Val result', a', t) ->
    _running a' = true -> stops_retry result' = false ->
    retries <= max_retries_per_video (stream config) + 1 ->
    Z.of_nat (length (streamed t))
    = max_retries_per_video (stream config) + 1 - retries /\
    slept t = repeat (FloatSec (retry_delay (stream config)))
                     (Z.to_nat (max_retries_per_video (stream config)
                                - retries)) /\
    _running a = true.
Proof.
  induction fuel as [|fuel IH];
    intros result retries a result' a' t H Hrun Hres Hle; [discriminate|].
  cbn [retry_loop] in H. rewrite bind_get in H.
  destruct ((retries <=? max_retries_per_video (stream config)) && _running a)
    eqn:C.
  - apply andb_true_iff in C. destruct C as [C Ra]. apply Z.leb_le in C.
    apply bind_val_inv in H as (r & a1 & t1 & t2 & E1 & H & ->).
    destruct (stream_video_returns W video a) as (r' & a1' & t1' & E1' & Hs).
    rewrite E1 in E1'. injection E1' as <- <- <-.
    destruct (stream_video_running W video a a1 r t1 E1) as [Hsl1 _].
    apply bind_val_inv in H as ([] & a2 & t3 & t4 & E2 & H & ->).
    injection E2 as <- <-.
    rewrite !streamed_app, !slept_app, Hs, Hsl1. cbn [streamed slept app].
    destruct (stops_retry r) eqn:Hstop.
    + injection H as <- <- <-. congruence.
    + apply bind_val_inv in H as ([] & a3 & t5 & t6 & E3 & H & ->).
      rewrite streamed_app, slept_app.
      destruct (IH _ _ _ _ _ _ H Hrun Hres) as (Hlen & Hsl & _); [lia|].
      rewrite Hsl. destruct (retries + 1 <=? _) eqn:P.
      * apply Z.leb_le in P. apply sleep_running in E3 as [-> _].
        cbn [streamed slept app length]. repeat split; [lia| |exact Ra].
        replace (Z.to_nat (max_retries_per_video (stream config) - retries))
          with (S (Z.to_nat (max_retries_per_video (stream config)
                             - (retries + 1)))) by lia.
        reflexivity.
      * apply Z.leb_gt in P. injection E3 as <- <-.
        cbn [streamed slept app length]. repeat split; [lia| |exact Ra].
        replace (max_retries_per_video (stream config) - retries) with 0
          by lia.
        now replace (max_retries_per_video (stream config) - (retries + 1))
          with (-1) by lia.
  - injection H as <- <- <-. apply andb_false_iff in C.
    destruct C as [C | C]; [|congruence].
    apply Z.leb_gt in C. cbn. repeat split; [lia | | exact Hrun].
    now replace (max_retries_per_video (stream config) - retries)
      with (-1) by lia.
Qed.

(** X6. When the retry loop of an item ends on a failure outcome with the
    application still running, it has made all of its
    [max_retries_per_video + 1] attempts, with a pause of [retry_delay]
    after each but the last. *)
Theorem retry_loop_uses_all_attempts (W : World) (config : AppConfig)
  (video : MatchVideo) (fuel : nat) (a a' : Application)
  (result : StreamResult) (t : list Event) :
  0 <= max_retries_per_video (stream config) ->
  retry_loop W config fuel video INTERRUPTED 0 a = (Val result, a', t) ->
  _running a' = true ->
  is_failure result ->
  Z.of_nat (length (streamed t)) = max_retries_per_video (stream config) + 1 /\
  slept t = repeat (FloatSec (retry_delay (stream config)))
                   (Z.to_nat (max_retries_per_video (stream config))).
Proof.
  intros Hlimit H Hrun Hfail.
  destruct (retry_loop_exhausts W config video fuel _ _ _ _ _ _ H Hrun)
    as (Hlen & Hsl & _).
  - destruct Hfail as [-> | [-> | ->]]; reflexivity.
  - lia.
  - rewrite Z.sub_0_r in *. split; assumption.
Qed.

Lemma retry_loop_uses_all_attempts_witness :
  Z.of_nat (length (streamed (snd (retry_loop (world_of run_encode_fails)
                                     default_config 5 qm1 INTERRUPTED 0
                                     (idle_app 0))))) = 3.
Proof.
  apply (retry_loop_uses_all_attempts (world_of run_encode_fails)
           default_config qm1 5 (idle_app 0)
           (snd (fst (retry_loop (world_of run_encode_fails) default_config
                        5 qm1 INTERRUPTED 0 (idle_app 0))))
           ENCODE_ERROR
           (snd (retry_loop (world_of run_encode_fails) default_config
                   5 qm1 INTERRUPTED 0 (idle_app 0)))).
  - cbn. lia.
  - reflexivity.
  - reflexivity.
  - right. left. reflexivity.
Defined.

(** X7. The pause after an RTMP_ERROR doubles with each consecutive error,
    from 2 seconds up, and is capped at 120 seconds from the seventh
    consecutive error on; it is therefore always between 2 and 120
    seconds. *)
Theorem rtmp_backoff_bounds (W : World) (config : AppConfig)
  (a : Application) :
  0 <= _consecutive_errors a ->
  exists n a',
    _handle_result W config RTMP_ERROR a = (Val tt, a', [EvSleep (IntSec n)]) /\
    2 <= n <= 120 /\
    (_consecutive_errors a < 6 -> n = 2 * 2 ^ _consecutive_errors a) /\
    (6 <= _consecutive_errors a -> n = 120).
Proof.
  intros H0.
  destruct (handle_result_returns W config RTMP_ERROR a) as (a' & E & _).
  eexists _, a'. split; [exact E|].
  rewrite Z.pow_add_r, Z.pow_1_r by lia.
  assert (Hpos : 1 <= 2 ^ _consecutive_errors a)
    by (apply Z.lt_pred_le, Z.pow_pos_nonneg; lia).
  split; [lia|]. split.
  - intros Hlt.
    assert (2 ^ _consecutive_errors a <= 2 ^ 5)
      by (apply Z.pow_le_mono_r; lia).
    change (2 ^ 5) with 32 in *. lia.
  - intros Hge.
    assert (2 ^ 6 <= 2 ^ _consecutive_errors a)
      by (apply Z.pow_le_mono_r; lia).
    change (2 ^ 6) with 64 in *. lia.
Qed.

Lemma rtmp_backoff_bounds_witness :
  exists n a',
    _handle_result (world_of run_ok) default_config RTMP_ERROR (idle_app 9)
    = (Val tt, a', [EvSleep (IntSec n)]) /\ 2 <= n <= 120.
Proof.
  destruct (rtmp_backoff_bounds (world_of run_ok) default_config (idle_app 9))
    as (n & a' & E & Hn & _).
  - cbn. lia.
  - exists n, a'. split; assumption.
Defined.

(** ** More on encoder selection *)

Lemma first_available_member (available : string)
  (candidates : list (string * string * list string)) (found : Encoder) :
  first_available candidates available = Some found ->
  exists label, In (label, fst found, snd found) candidates.
Proof.
  induction candidates as [|[[l e] x] r IH]; [discriminate|]. cbn.
  destruct (PyStr.str_in e available).
  - intros [= <-]. exists l. now left.
  - intros H. destruct (IH H) as [label Hin]. exists label. now right.
Qed.

(** X8. Whatever the preference and the machine, the selector returns one of
    four profiles: libx264, h264_nvenc with [-preset p4], h264_videotoolbox
    or h264_vaapi, the last three only when asked for by name or by "auto".
    A preference that is none of the five known words gives libx264. The
    encoder list is probed at most once, and only when ffmpeg was found. *)
Theorem detect_hw_encoder_range (w : World) (preference : string) :
  let found := fst (_detect_hw_encoder w preference) in
  let events := snd (_detect_hw_encoder w preference) in
  (found = ("libx264", []) \/
   (found = ("h264_nvenc", ["-preset"; "p4"]) /\
    (preference = "nvenc" \/ preference = "auto")) \/
   (found = ("h264_videotoolbox", []) /\
    (preference = "videotoolbox" \/ preference = "auto")) \/
   (found = ("h264_vaapi", []) /\
    (preference = "vaapi" \/ preference = "auto"))) /\
  (preference <> "auto" -> preference <> "nvenc" ->
   preference <> "videotoolbox" -> preference <> "vaapi" ->
   found = ("libx264", [])) /\
  (events = [] \/ events = [EvWhich] \/ events = [EvWhich; EvProbe]) /\
  (In EvProbe events ->
   exists path, which_ffmpeg w = Some path /\ path <> "").
Proof.
  assert (Hmem : forall available found,
             first_available (candidates_for preference) available
             = Some found ->
             (found = ("h264_nvenc", ["-preset"; "p4"]) /\
              (preference = "nvenc" \/ preference = "auto")) \/
             (found = ("h264_videotoolbox", []) /\
              (preference = "videotoolbox" \/ preference = "auto")) \/
             (found = ("h264_vaapi", []) /\
              (preference = "vaapi" \/ preference = "auto"))).
  { intros available [enc args] H.
    destruct (first_available_member _ _ _ H) as [label Hin].
    unfold candidates_for, in2 in Hin. cbn [fst snd] in Hin.
    rewrite !in_app_iff in Hin.
    destruct Hin as [Hin | [Hin | Hin]];
      match type of Hin with
      | In _ (if ?b || ?c then _ else _) =>
          destruct b eqn:B1; destruct c eqn:B2; cbn in Hin;
          try contradiction;
          destruct Hin as [[= <- <- <-] | []];
          rewrite ?String.eqb_eq in *; auto 6
      end. }
  cbv zeta. unfold _detect_hw_encoder.
  destruct (String.eqb preference "none") eqn:N; cbn [fst snd].
  - apply String.eqb_eq in N. subst. repeat split; auto.
    + now intros [].
  - destruct (which_ffmpeg w) as [path|]; cbn [fst snd].
    + destruct (String.eqb path "") eqn:P; cbn [fst snd].
      * repeat split; auto. intros [H | []]; discriminate.
      * apply String.eqb_neq in P.
        destruct (ffmpeg_encoders w) as [available|]; cbn [fst snd].
        -- destruct (first_available (candidates_for preference) available)
             as [found|] eqn:F; cbn [fst snd].
           ++ repeat split; auto.
              ** right. exact (Hmem available found F).
              ** intros H1 H2 H3 H4.
                 destruct (Hmem available found F)
                   as [[_ [E | E]] | [[_ [E | E]] | [_ [E | E]]]];
                   congruence.
              ** intros _. now exists path.
           ++ repeat split; auto. intros _. now exists path.
        -- repeat split; auto. intros _. now exists path.
    + repeat split; auto. intros [H | []]; discriminate.
Qed.

Lemma detect_hw_encoder_range_witness :
  fst (_detect_hw_encoder (world_of run_ok) "cuda") = ("libx264", []).
Proof.
  apply (detect_hw_encoder_range (world_of run_ok) "cuda"); discriminate.
Defined.

(** ** The command lines *)

Lemma nonempty_iff (s : string) : nonempty s = true <-> s <> "".
Proof.
  unfold nonempty. rewrite negb_true_iff. apply String.eqb_neq.
Qed.

(** X9. Without a token the sink URL is the configured one. With a token
    the URL is the configured one followed by [?token=...] when it has no
    query yet and by [&token=...] when it has one, so that the token always
    sits in the query part, after a question mark. *)
Theorem build_rtmp_url_query (c : SinkConfig) :
  (rtmp_token c = "" -> _build_rtmp_url c = rtmp_url c) /\
  (rtmp_token c <> "" ->
   exists sep,
     _build_rtmp_url c = rtmp_url c ++ sep ++ "token=" ++ rtmp_token c /\
     (PyStr.occurs "?" (rtmp_url c) -> sep = "&") /\
     (~ PyStr.occurs "?" (rtmp_url c) -> sep = "?") /\
     exists before,
       _build_rtmp_url c = before ++ "token=" ++ rtmp_token c /\
       PyStr.occurs "?" before).
Proof.
  unfold _build_rtmp_url. split.
  - intros ->. reflexivity.
  - intros Htok. apply nonempty_iff in Htok. rewrite Htok.
    destruct (PyStr.str_in "?" (rtmp_url c)) eqn:Q.
    + apply PyStrFacts.str_in_iff in Q. exists "&". repeat split; auto.
      * intros H. now elim H.
      * exists (rtmp_url c ++ "&"). split.
        -- now rewrite PyStrFacts.append_assoc.
        -- destruct Q as (pre & post & E). exists pre, (post ++ "&").
           rewrite E. now rewrite !PyStrFacts.append_assoc.
    + assert (Hno : ~ PyStr.occurs "?" (rtmp_url c)).
      { intros H. apply PyStrFacts.str_in_iff in H. congruence. }
      exists "?". repeat split; auto.
      * intros H. now elim Hno.
      * exists (rtmp_url c ++ "?"). split.
        -- now rewrite PyStrFacts.append_assoc.
        -- now exists (rtmp_url c), "".
Qed.

Lemma build_rtmp_url_query_witness :
  exists before,
    _build_rtmp_url {| rtmp_url := "rtmp://restreamer:1935/live/external.stream";
                       rtmp_token := "s3cret"; video_bitrate := "2500k";
                       audio_bitrate := "128k"; preset := "veryfast";
                       ytdlp_format := "best[height<=1080]" |}
    = before ++ "token=" ++ "s3cret" /\
    PyStr.occurs "?" before.
Proof.
  destruct (proj2 (build_rtmp_url_query
                     {| rtmp_url := "rtmp://restreamer:1935/live/external.stream";
                        rtmp_token := "s3cret"; video_bitrate := "2500k";
                        audio_bitrate := "128k"; preset := "veryfast";
                        ytdlp_format := "best[height<=1080]" |}))
    as (sep & _ & _ & _ & before & E & Hq).
  - discriminate.
  - exists before. split; assumption.
Defined.

Lemma detected_profile (w : World) (preference : string) :
  In (fst (_detect_hw_encoder w preference))
     [("libx264", []); ("h264_nvenc", ["-preset"; "p4"]);
      ("h264_videotoolbox", []); ("h264_vaapi", [])].
Proof.
  unfold _detect_hw_encoder.
  destruct (String.eqb preference "none"); [now left|].
  destruct (which_ffmpeg w) as [path|]; [|now left].
  destruct (String.eqb path ""); [now left|].
  destruct (ffmpeg_encoders w) as [available|]; [|now left].
  destruct (first_available _ available) as [[enc args]|] eqn:F; [|now left].
  destruct (first_available_member _ _ _ F) as [label Hin].
  unfold candidates_for in Hin. cbn [fst snd] in *.
  rewrite !in_app_iff in Hin.
  destruct Hin as [Hin | [Hin | Hin]];
    match type of Hin with
    | In _ (if ?b then _ else _) =>
        destruct b; cbn in Hin; try contradiction;
        destruct Hin as [[= <- <- <-] | []]; cbn; auto
    end.
Qed.

(** X10. For the encoder the selector fixes, whatever the preference and
    the machine, the ffmpeg command line reads from [pipe:0], ends with
    [-f flv] and the sink URL, and carries the encoder's options: the
    configured preset for libx264, [-preset p4] for h264_nvenc, none for
    h264_videotoolbox, and for h264_vaapi none but the device
    initialisation, placed before the input. *)
Theorem ffmpeg_args_for_detected (w : World) (preference : string)
  (c : SinkConfig) (url : string) :
  let encoder := fst (fst (_detect_hw_encoder w preference)) in
  let extra := snd (fst (_detect_hw_encoder w preference)) in
  exists device options,
    _build_ffmpeg_args c encoder extra url
    = (["ffmpeg"; "-hide_banner"; "-loglevel"; "warning"] ++ device ++
       ["-re"; "-i"; "pipe:0"; "-c:v"; encoder] ++ options ++
       ["-b:v"; video_bitrate c; "-c:a"; "aac"; "-b:a"; audio_bitrate c;
        "-f"; "flv"; url])%list /\
    ((encoder = "libx264" /\ device = [] /\
      options = ["-preset"; preset c]) \/
     (encoder = "h264_nvenc" /\ device = [] /\
      options = ["-preset"; "p4"]) \/
     (encoder = "h264_videotoolbox" /\ device = [] /\ options = []) \/
     (encoder = "h264_vaapi" /\
      device = ["-vaapi_device"; "/dev/dri/renderD128"] /\ options = [])).
Proof.
  cbv zeta. pose proof (detected_profile w preference) as H.
  destruct (fst (_detect_hw_encoder w preference)) as [encoder extra].
  cbn [fst snd].
  destruct H as [H | [H | [H | [H | []]]]]; injection H as <- <-.
  - exists [], ["-preset"; preset c]. split; [reflexivity | auto].
  - exists [], ["-preset"; "p4"]. split; [reflexivity | auto].
  - exists [], []. split; [reflexivity | auto 6].
  - exists ["-vaapi_device"; "/dev/dri/renderD128"], [].
    split; [reflexivity | auto 8].
Qed.

(** ** Draining stderr *)







(** ** Stopping the children *)





(** ** The cancellable sleep *)

Lemma wait_facts (clk : Timer.Clock) (end_ : Q) (fuel : nat) :
  forall running k slices r,
    Timer.wait clk end_ fuel running k = Some (slices, r) ->
    Forall (fun d => 0 < d /\ d <= 1)%Q slices /\
    (running = false -> slices = [] /\ r = false) /\
    (forall j, (S j < length slices)%nat ->
               Timer.signal_in_slice clk (k + j) = false) /\
    (r = true ->
     (end_ - Timer.reading clk (k + length slices) <= 0)%Q) /\
    (r = false -> running = true ->
     exists n, length slices = S n /\
               Timer.signal_in_slice clk (k + n) = true).
Proof.
  induction fuel as [|fuel IH]; intros running k slices r H; [discriminate|].
  cbn [Timer.wait] in H. destruct running.
  - destruct (Qle_bool (end_ - Timer.reading clk k) 0) eqn:D.
    + injection H as <- <-. apply Qle_bool_iff in D.
      rewrite Nat.add_0_r.
      repeat split; try easy; try (intros j Hj; cbn in Hj; lia).
    + assert (Hpos : (0 < end_ - Timer.reading clk k)%Q).
      { apply Qnot_le_lt. intros Hle. apply Qle_bool_iff in Hle. congruence. }
      destruct (Timer.wait clk end_ fuel
                  (negb (Timer.signal_in_slice clk k)) (S k))
        as [[slices' r']|] eqn:E; [|discriminate].
      injection H as <- <-.
      destruct (IH _ _ _ _ E) as (Hall & Hoff & Hsig & Hdead & Hstop).
      split; [|split; [|split; [|split]]].
      * constructor; [|exact Hall]. split.
        -- apply Q.min_glb_lt; [reflexivity | exact Hpos].
        -- apply Q.le_min_l.
      * discriminate.
      * intros [|j] Hj; cbn [length] in Hj.
        -- rewrite Nat.add_0_r.
           destruct (Timer.signal_in_slice clk k); [|reflexivity].
           destruct (Hoff eq_refl) as [-> _]. cbn in Hj. lia.
        -- rewrite Nat.add_succ_r. apply (Hsig j). lia.
      * intros Hr. cbn [length]. rewrite Nat.add_succ_r. now apply Hdead.
      * intros Hr _. cbn [length].
        destruct (Timer.signal_in_slice clk k) eqn:S0.
        -- destruct (Hoff eq_refl) as [-> _]. exists O.
           now rewrite Nat.add_0_r.
        -- destruct (Hstop Hr eq_refl) as (n & -> & Hn). exists (S n).
           now rewrite Nat.add_succ_r.
  - injection H as <- <-.
    repeat split; try easy; try constructor;
      try (intros j Hj; cbn in Hj; lia).
Qed.

(** X13. [_sleep] hands [time.sleep] only slices of more than 0 and at most
    1 second. Called when not running it sleeps not at all. It starts no
    slice after one during which the handler ran, and it returns with
    [_running] still set only once the clock has reached the deadline. *)
Theorem sleep_is_cancellable (clk : Timer.Clock) (seconds : Q) (fuel : nat)
  (running : bool) (slices : list Q) (r : bool) :
  Timer._sleep clk seconds fuel running = Some (slices, r) ->
  Forall (fun d => 0 < d /\ d <= 1)%Q slices /\
  (running = false -> slices = [] /\ r = false) /\
  (forall j, (1 <= j < length slices)%nat ->
             Timer.signal_in_slice clk j = false) /\
  (r = true ->
   (Timer.reading clk 0 + seconds
    <= Timer.reading clk (S (length slices)))%Q) /\
  (r = false -> running = true ->
   Timer.signal_in_slice clk (length slices) = true).
Proof.
  unfold Timer._sleep. intros H.
  destruct (wait_facts clk _ fuel _ _ _ _ H)
    as (Hall & Hoff & Hsig & Hdead & Hstop).
  split; [exact Hall|]. split; [exact Hoff|]. split; [|split].
  - intros [|j] [H1 H2]; [lia|]. apply (Hsig j). lia.
  - intros Hr. specialize (Hdead Hr). cbn [Nat.add] in Hdead. lra.
  - intros Hr Hrun. destruct (Hstop Hr Hrun) as (n & -> & Hn). exact Hn.
Qed.

Lemma sleep_is_cancellable_witness :
  Forall (fun d => 0 < d /\ d <= 1)%Q [1%Q; 1%Q; (1 # 2)%Q].
Proof.
  apply (sleep_is_cancellable
           {| Timer.reading := fun k => inject_Z (Z.of_nat k);
              Timer.signal_in_slice := fun _ => false |}
           (7 # 2) 10 true [1%Q; 1%Q; (1 # 2)%Q] true).
  reflexivity.
Defined.

Lemma wait_terminates (clk : Timer.Clock) (end_ : Q) (fuel : nat) :
  forall (n : nat) (running : bool) (k : nat),
    (forall j, (k <= j)%nat ->
               (0 < end_ - Timer.reading clk j)%Q ->
               (Timer.reading clk j + Qmin 1 (end_ - Timer.reading clk j)
                <= Timer.reading clk (S j))%Q) ->
    (end_ - Timer.reading clk k <= inject_Z (Z.of_nat n))%Q ->
    (n < fuel)%nat ->
    exists slices r,
      Timer.wait clk end_ fuel running k = Some (slices, r) /\
      (length slices <= n)%nat.
Proof.
  induction fuel as [|fuel IH]; intros n running k Hclock Hrem Hfuel; [lia|].
  cbn [Timer.wait]. destruct running; [|exists [], false; split; cbn; [easy|lia]].
  destruct (Qle_bool (end_ - Timer.reading clk k) 0) eqn:D;
    [exists [], true; split; cbn; [easy|lia]|].
  assert (Hpos : (0 < end_ - Timer.reading clk k)%Q).
  { apply Qnot_le_lt. intros Hle. apply Qle_bool_iff in Hle. congruence. }
  destruct n as [|n].
  { change (inject_Z (Z.of_nat 0)) with 0%Q in Hrem. lra. }
  assert (Hn : (inject_Z (Z.of_nat (S n)) == inject_Z (Z.of_nat n) + 1)%Q).
  { rewrite Nat2Z.inj_succ. unfold Z.succ. now rewrite inject_Z_plus. }
  assert (Hn0 : (0 <= inject_Z (Z.of_nat n))%Q).
  { change 0%Q with (inject_Z 0). rewrite <- Zle_Qle. lia. }
  pose proof (Hclock k (le_n k) Hpos) as Hadv.
  destruct (IH n (negb (Timer.signal_in_slice clk k)) (S k))
    as (slices & r & E & Hlen).
  - intros j Hj. apply Hclock. lia.
  - destruct (Q.min_spec 1 (end_ - Timer.reading clk k)) as [[H1 H2] | [H1 H2]];
      rewrite H2 in Hadv; lra.
  - lia.
  - rewrite E. exists (Qmin 1 (end_ - Timer.reading clk k) :: slices), r.
    split; [reflexivity | cbn; lia].
Qed.

(** X14. When the clock does not run backwards and every [time.sleep(d)]
    lasts at least [d], [_sleep(seconds)] returns, after at most
    [ceil(seconds)] slices. *)
Theorem sleep_terminates (clk : Timer.Clock) (seconds : Q) (fuel : nat)
  (running : bool) :
  (Timer.reading clk 0 <= Timer.reading clk 1)%Q ->
  (forall j, (1 <= j)%nat ->
             let remaining :=
               (Timer.reading clk 0 + seconds - Timer.reading clk j)%Q in
             (0 < remaining)%Q ->
             (Timer.reading clk j + Qmin 1 remaining
              <= Timer.reading clk (S j))%Q) ->
  (Z.to_nat (Qceiling seconds) < fuel)%nat ->
  exists slices r,
    Timer._sleep clk seconds fuel running = Some (slices, r) /\
    (length slices <= Z.to_nat (Qceiling seconds))%nat.
Proof.
  intros H01 Hclock Hfuel. unfold Timer._sleep.
  apply wait_terminates; [exact Hclock | | exact Hfuel].
  pose proof (Qle_ceiling seconds) as Hc.
  assert (Hz : (inject_Z (Qceiling seconds)
                <= inject_Z (Z.of_nat (Z.to_nat (Qceiling seconds))))%Q).
  { rewrite <- Zle_Qle. lia. }
  lra.
Qed.

Lemma sleep_terminates_witness :
  exists slices r,
    Timer._sleep {| Timer.reading := fun k => inject_Z (Z.of_nat k);
                    Timer.signal_in_slice := fun _ => false |}
                 (7 # 2) 10 true = Some (slices, r) /\
    (length slices <= 4)%nat.
Proof.
  apply (sleep_terminates
           {| Timer.reading := fun k => inject_Z (Z.of_nat k);
              Timer.signal_in_slice := fun _ => false |}
           (7 # 2) 10 true).
  - unfold Qle. cbn. lia.
  - intros j Hj remaining Hpos. cbn [Timer.reading]. clearbody remaining.
    pose proof (Q.le_min_l 1 remaining) as Hmin.
    rewrite Nat2Z.inj_succ. unfold Z.succ. rewrite inject_Z_plus.
    change (inject_Z 1) with 1%Q. lra.
  - cbn. lia.
Defined.

(** ** A negative retry limit *)

Lemma popens_app (t1 t2 : list Event) :
  popens (t1 ++ t2) = (popens t1 ++ popens t2)%list.
Proof.
  induction t1 as [|e t1 IH]; [reflexivity|].
  destruct e; simpl; now rewrite ?IH.
Qed.

Lemma idle_bind {A B} (m : M A) (k : A -> M B) :
  idle m -> (forall x, idle (k x)) -> idle (bind m k).
Proof.
  intros Hm Hk a. rewrite bind_cases. destruct (Hm a) as [H1 H2].
  destruct (m a) as [[[x|e|] a1] t1]; cbn [fst snd] in *; auto.
  destruct (Hk x a1) as [H3 H4].
  now rewrite streamed_app, popens_app, H1, H2, H3, H4.
Qed.

Lemma idle_if {A} (b : bool) (m1 m2 : M A) :
  idle m1 -> idle m2 -> idle (if b then m1 else m2).
Proof. now destruct b. Qed.

Lemma idle_ret {A} (x : A) : idle (ret x).
Proof. now intros a. Qed.

Lemma idle_get : idle get.
Proof. now intros a. Qed.

Lemma idle_modify (f : Application -> Application) : idle (modify f).
Proof. now intros a. Qed.

Lemma idle_out_of_fuel {A} : idle (@out_of_fuel A).
Proof. now intros a. Qed.

Lemma idle_raise {A} (e : Exn) : idle (@raise A e).
Proof. now intros a. Qed.

Lemma idle_sleep (W : World) (s : Seconds) : idle (_sleep W s).
Proof. intros a. unfold _sleep. now destruct (_running a). Qed.

Lemma idle_build_pool (W : World) : idle (build_pool W).
Proof. intros a. unfold build_pool. now destruct (tba_pool W _). Qed.

Lemma idle_safe_rebuild_pool (W : World) : idle (_safe_rebuild_pool W).
Proof.
  intros a. unfold _safe_rebuild_pool, try_except, bind, build_pool, ret.
  now destruct (tba_pool W _).
Qed.

Lemma idle_next_video (W : World) (config : AppConfig) :
  idle (next_video W config).
Proof.
  intros a.
  unfold next_video, bind, emit, get, read_monotonic, build_pool, reshuffle,
    modify, ret, raise.
  cbn.
  repeat match goal with
         | |- context [if ?b then _ else _] => destruct b; cbn
         | |- context [match tba_pool ?w ?k with _ => _ end] =>
             destruct (tba_pool w k); cbn
         | |- context [match nth_error ?l ?i with _ => _ end] =>
             destruct (nth_error l i); cbn
         | |- context [match _pool ?p with _ => _ end] =>
             destruct (_pool p); cbn
         end; split; reflexivity.
Qed.

Lemma detect_hw_encoder_events (w : World) (preference : string) :
  let events := snd (_detect_hw_encoder w preference) in
  events = [] \/ events = [EvWhich] \/ events = [EvWhich; EvProbe].
Proof.
  cbv zeta. unfold _detect_hw_encoder.
  destruct (String.eqb preference "none"); [now left|].
  destruct (which_ffmpeg w) as [path|]; [|auto].
  destruct (String.eqb path ""); [auto|].
  destruct (ffmpeg_encoders w) as [available|]; [|auto].
  destruct (first_available _ available); auto.
Qed.

Lemma idle_handle_result (W : World) (config : AppConfig)
  (result : StreamResult) : idle (_handle_result W config result).
Proof.
  intros a. destruct (handle_result_returns W config result a) as (a' & -> & _).
  now destruct result.
Qed.

Lemma idle_retry_loop (W : World) (config : AppConfig) (video : MatchVideo)
  (fuel : nat) (result : StreamResult) :
  max_retries_per_video (stream config) < 0 ->
  idle (retry_loop W config fuel video result 0).
Proof.
  intros Hneg a. destruct fuel as [|fuel]; [easy|].
  cbn [retry_loop]. rewrite bind_get.
  apply Z.leb_gt in Hneg. now rewrite Hneg.
Qed.

(** X15. With a negative [max_retries_per_video] the program never starts a
    child process and never reports a pipeline outcome, however long it
    runs: every video it pulls is dropped at once. *)
Theorem negative_retry_limit_streams_nothing (W : World)
  (config : AppConfig) (fuel : nat) :
  max_retries_per_video (stream config) < 0 ->
  popens (snd (main W config fuel)) = [] /\
  streamed (snd (main W config fuel)) = [].
Proof.
  intros Hneg.
  assert (Hit : forall f, idle (iteration W config f)).
  { intros f. unfold iteration. apply idle_bind; [apply idle_get|].
    intros a. apply idle_if.
    - apply idle_bind; [apply idle_sleep | intros _; apply idle_modify].
    - apply idle_bind; [apply idle_next_video|]. intros [v|].
      + apply idle_bind; [now apply idle_retry_loop|].
        intros r. apply idle_handle_result.
      + apply idle_bind;
          [apply idle_sleep | intros _; apply idle_safe_rebuild_pool]. }
  assert (Hloop : forall f, idle (main_loop W config f)).
  { induction f as [|f IH]; cbn [main_loop]; [apply idle_out_of_fuel|].
    apply idle_bind; [apply idle_get|]. intros a.
    apply idle_if; [|apply idle_ret].
    apply idle_bind; [apply Hit | intros _; exact IH]. }
  assert (Hrun : idle (run W config fuel)).
  { unfold run. apply idle_bind.
    - intros a. unfold try_except, build_pool, raise.
      now destruct (tba_pool W _).
    - intros n. apply idle_if; [apply idle_raise | apply Hloop]. }
  unfold main, Application_init.
  pose proof (detect_hw_encoder_events W (hw_accel (stream config))) as Hev.
  destruct (_detect_hw_encoder W (hw_accel (stream config)))
    as [[encoder extra_args] events]. cbn [snd] in Hev.
  match goal with
  | |- context [run W config fuel ?app] =>
      destruct (Hrun app) as [H1 H2];
      destruct (run W config fuel app) as [[r a2] t2]
  end.
  cbn [fst snd] in *. rewrite popens_app, streamed_app, H1, H2.
  destruct Hev as [-> | [-> | ->]]; split; reflexivity.
Qed.

Lemma negative_retry_limit_streams_nothing_witness :
  streamed
    (snd (main (world_of run_ok)
            {| tba := {| cache_ttl := 3600 |};
               stream := {| hw_accel := "none";
                            max_retries_per_video := -1;
                            retry_delay := 5; error_cooldown := 10 |} |}
            6)) = [].
Proof.
  apply (negative_retry_limit_streams_nothing (world_of run_ok)
           {| tba := {| cache_ttl := 3600 |};
              stream := {| hw_accel := "none";
                           max_retries_per_video := -1;
                           retry_delay := 5; error_cooldown := 10 |} |}
           6).
  cbn. lia.
Defined.

(** ** Validation *)

Lemma member_iff (x : string) (set : list string) :
  Validation.member x set = true <-> In x set.
Proof.
  unfold Validation.member. rewrite existsb_exists. split.
  - intros (y & Hin & E). apply String.eqb_eq in E. now subst.
  - intros Hin. exists x. split; [exact Hin | apply String.eqb_refl].
Qed.

Lemma comp_level_issues_eq (levels : list string) :
  Validation.comp_level_issues levels
  = map Validation.UnknownCompLevel
        (filter (fun l => negb (Validation.member l Validation.valid_levels))
                levels).
Proof.
  induction levels as [|l rest IH]; [reflexivity|]. cbn [Validation.comp_level_issues filter].
  destruct (Validation.member l Validation.valid_levels); cbn; now rewrite IH.
Qed.

Lemma comp_level_issues_filter (levels : list string) :
  filter Validation.is_error (Validation.comp_level_issues levels) = [] /\
  filter (fun i => negb (Validation.is_error i))
         (Validation.comp_level_issues levels)
  = Validation.comp_level_issues levels.
Proof.
  induction levels as [|l rest [IH1 IH2]]; [easy|].
  cbn [Validation.comp_level_issues].
  destruct (Validation.member l Validation.valid_levels); [easy|].
  cbn. now rewrite IH1, IH2.
Qed.

(** X16. [main] goes on to build the application exactly when the key is
    not empty, the request delay is not negative, a year or an event is
    given, [hw_accel] is one of the five known words and the sink URL is not
    empty. Unknown competition levels and an unknown logging level only
    give warnings, one per unknown level, and never stop the start. An
    accepted configuration either turns hardware encoding off or gives the
    selector at least one encoder to look for. *)
Theorem validation_errors (c : Validation.Config) :
  (Validation.errors c = [] <->
   Validation.tba_api_key c <> "" /\
   (0 <= Validation.tba_request_delay c)%Q /\
   (Validation.filters_years c <> [] \/ Validation.filters_events c <> []) /\
   In (Validation.stream_hw_accel c) Validation.valid_hw /\
   Validation.stream_rtmp_url c <> "") /\
  Validation.warnings c
  = (map Validation.UnknownCompLevel
         (filter (fun l => negb (Validation.member l Validation.valid_levels))
                 (Validation.filters_comp_levels c)) ++
     if Validation.member (Validation.upper (Validation.logging_level c))
                          Validation.valid_log_levels
     then [] else [Validation.UnknownLoggingLevel (Validation.logging_level c)])%list /\
  (Validation.errors c = [] ->
   Validation.stream_hw_accel c = "none" \/
   candidates_for (Validation.stream_hw_accel c) <> []).
Proof.
  pose proof (nonempty_iff (Validation.tba_api_key c)) as Hkey.
  pose proof (Qle_bool_iff 0 (Validation.tba_request_delay c)) as Hdelay.
  pose proof (member_iff (Validation.stream_hw_accel c) Validation.valid_hw)
    as Hhw.
  pose proof (nonempty_iff (Validation.stream_rtmp_url c)) as Hurl.
  destruct (comp_level_issues_filter (Validation.filters_comp_levels c))
    as [Hc1 Hc2].
  assert (Hcand : In (Validation.stream_hw_accel c) Validation.valid_hw ->
                  Validation.stream_hw_accel c = "none" \/
                  candidates_for (Validation.stream_hw_accel c) <> []).
  { intros [<- | [<- | [<- | [<- | [<- | []]]]]]; auto; right; discriminate. }
  unfold Validation.errors, Validation.warnings, Validation.validate_config.
  rewrite <- comp_level_issues_eq.
  destruct (nonempty (Validation.tba_api_key c));
    destruct (Qle_bool 0 (Validation.tba_request_delay c));
    destruct (Validation.member (Validation.stream_hw_accel c)
                Validation.valid_hw);
    destruct (nonempty (Validation.stream_rtmp_url c));
    destruct (Validation.member
                (Validation.upper (Validation.logging_level c))
                Validation.valid_log_levels);
    destruct (Validation.filters_years c) as [|y ys];
    destruct (Validation.filters_events c) as [|e es];
    cbn [app]; rewrite ?app_nil_r;
    repeat (rewrite ?filter_app, ?Hc1, ?Hc2; cbn [filter Validation.is_error negb app]);
    rewrite ?app_nil_r;
    (split;
     [split;
      [intros Herr; try discriminate Herr;
       repeat split; try tauto;
       first [left; discriminate | right; discriminate]
      |intros (H1 & H2 & H3 & H4 & H5); try reflexivity; exfalso;
       first [ apply Hkey in H1; discriminate H1
             | apply Hdelay in H2; discriminate H2
             | apply Hhw in H4; discriminate H4
             | apply Hurl in H5; discriminate H5
             | destruct H3 as [H3 | H3]; now apply H3 ]]
     |split;
      [reflexivity
      |intros Herr; try discriminate Herr; apply Hcand; tauto]]).
Qed.

Lemma validation_errors_witness :
  Validation.stream_hw_accel
    {| Validation.tba_api_key := "k"; Validation.tba_request_delay := 1 # 2;
       Validation.filters_years := [2024]; Validation.filters_events := [];
       Validation.filters_comp_levels := ["qm"; "ef"];
       Validation.stream_hw_accel := "vaapi";
       Validation.stream_rtmp_url := "rtmp://h/live";
       Validation.logging_level := "info" |} = "none" \/
  candidates_for "vaapi" <> [].
Proof.
  apply (validation_errors
           {| Validation.tba_api_key := "k";
              Validation.tba_request_delay := 1 # 2;
              Validation.filters_years := [2024];
              Validation.filters_events := [];
              Validation.filters_comp_levels := ["qm"; "ef"];
              Validation.stream_hw_accel := "vaapi";
              Validation.stream_rtmp_url := "rtmp://h/live";
              Validation.logging_level := "info" |}).
  reflexivity.
Defined.

(** ** Building the pool *)

Section PoolFacts.

Variable py_int : string -> option Z.
Variable client : Pool.Client.
Variable filters : Pool.FilterConfig.

Lemma events_of_years_none (l : list Z) :
  Pool.events_of_years client l = None <->
  exists y, In y l /\ Pool.get_events_for_year client y = None.
Proof.
  induction l as [|y l IH]; cbn.
  - split; [discriminate | intros (y & [] & _)].
  - destruct (Pool.get_events_for_year client y) eqn:G.
    + destruct (Pool.events_of_years client l) as [more|]; split.
      * discriminate.
      * intros (z & [<- | Hz] & Hn); [congruence|].
        assert (Some more = None) by (apply IH; now exists z).
        discriminate.
      * intros _. destruct (proj1 IH eq_refl) as (z & Hz & Hn).
        exists z. auto.
      * reflexivity.
    + split; [|reflexivity]. intros _. exists y. auto.
Qed.

(** X17. On events of the declared types (no null [state_prov]),
    [build_pool] raises exactly when no event is configured by key and
    the request for the events of one of the configured years fails. With
    explicit event keys it never raises: the failures of the other requests
    are passed over. *)
Theorem videos_to_shuffle_raises :
  Pool.videos_to_shuffle py_int client filters = None <->
  Pool.events filters = [] /\
  exists y, In y (Pool.years filters) /\
            Pool.get_events_for_year client y = None.
Proof.
  unfold Pool.videos_to_shuffle, Pool._resolve_events.
  destruct (Pool.events filters) as [|ek eks].
  - destruct (Pool.events_of_years client (Pool.years filters)) eqn:E.
    + split; [discriminate|]. intros [_ H].
      apply events_of_years_none in H. congruence.
    + split; [|reflexivity]. intros _. split; [reflexivity|].
      now apply events_of_years_none.
  - split; [discriminate | intros [H _]; discriminate].
Qed.

Lemma videos_of_match_sound (m : Pool.RawMatch) (raw : list Pool.RawVideo) :
  forall l, Pool.videos_of_match py_int m raw = Some l ->
            forall v, In v l ->
                      youtube_id v <> "" /\
                      match_key v = Pool.get_or (Pool.raw_key m) "" /\
                      comp_level v = Pool.get_or (Pool.raw_comp_level m) "" /\
                      exists rv, In rv raw /\
                                 Pool.video_type rv = Some "youtube" /\
                                 Pool.video_key rv = Some (youtube_id v).
Proof.
  induction raw as [|rv raw IH]; intros l H v Hv; cbn in H.
  - injection H as <-. destruct Hv.
  - destruct (Pool.video_type rv) as [t|] eqn:T; cbn in H.
    + destruct (String.eqb t "youtube") eqn:Y; cbn in H.
      * destruct (Pool.video_key rv) as [k|] eqn:K; cbn in H.
        -- destruct (nonempty k) eqn:N; cbn in H.
           ++ destruct (Pool.year_of py_int _) as [y|]; [|discriminate].
              destruct (Pool.videos_of_match py_int m raw) as [more|];
                [|discriminate].
              injection H as <-. destruct Hv as [<- | Hv].
              ** cbn. apply String.eqb_eq in Y. subst t.
                 repeat split; [now apply nonempty_iff|].
                 exists rv. split; [now left | split; [exact T | exact K]].
              ** destruct (IH more eq_refl v Hv) as (H1 & H2 & H3 & x & Hx & Hx').
                 repeat split; auto. exists x. split; [now right | exact Hx'].
           ++ destruct (IH l H v Hv) as (H1 & H2 & H3 & x & Hx & Hx').
              repeat split; auto. exists x. split; [now right | exact Hx'].
        -- destruct (IH l H v Hv) as (H1 & H2 & H3 & x & Hx & Hx').
           repeat split; auto. exists x. split; [now right | exact Hx'].
      * destruct (IH l H v Hv) as (H1 & H2 & H3 & x & Hx & Hx').
        repeat split; auto. exists x. split; [now right | exact Hx'].
    + destruct (IH l H v Hv) as (H1 & H2 & H3 & x & Hx & Hx').
      repeat split; auto. exists x. split; [now right | exact Hx'].
Qed.

Lemma extract_sound (matches : list Pool.RawMatch) :
  forall l, Pool.extract_videos_from_matches py_int matches = Some l ->
            forall v, In v l ->
                      youtube_id v <> "" /\
                      exists m, In m matches /\
                                match_key v = Pool.get_or (Pool.raw_key m) "" /\
                                comp_level v
                                = Pool.get_or (Pool.raw_comp_level m) "".
Proof.
  induction matches as [|m rest IH]; intros l H v Hv; cbn in H.
  - injection H as <-. destruct Hv.
  - destruct (Pool.videos_of_match py_int m _) as [videos|] eqn:V;
      [|discriminate].
    destruct (Pool.extract_videos_from_matches py_int rest) as [more|];
      [|discriminate].
    injection H as <-. apply in_app_iff in Hv as [Hv | Hv].
    + destruct (videos_of_match_sound m _ _ V v Hv) as (H1 & H2 & H3 & _).
      split; [exact H1|]. exists m. split; [now left | split; assumption].
    + destruct (IH more eq_refl v Hv) as (H1 & x & Hx & Hx').
      split; [exact H1|]. exists x. split; [now right | exact Hx'].
Qed.

Lemma fetch_sound (evs : list Pool.EventInfo) (v : MatchVideo) :
  In v (Pool._fetch_videos_for_events py_int client evs) ->
  exists ev matches videos,
    In ev evs /\
    Pool.get_event_matches client (Pool.key ev) = Some matches /\
    Pool.extract_videos_from_matches py_int matches = Some videos /\
    In v videos.
Proof.
  induction evs as [|ev rest IH]; cbn; [intros []|].
  destruct (Pool.get_event_matches client (Pool.key ev)) as [matches|] eqn:G.
  - destruct (Pool.extract_videos_from_matches py_int matches)
      as [videos|] eqn:X.
    + intros Hv. apply in_app_iff in Hv as [Hv | Hv].
      * exists ev, matches, videos. auto.
      * destruct (IH Hv) as (e & ms & vs & He & H'). exists e, ms, vs. auto.
    + intros Hv. destruct (IH Hv) as (e & ms & vs & He & H').
      exists e, ms, vs. auto.
  - intros Hv. destruct (IH Hv) as (e & ms & vs & He & H').
    exists e, ms, vs. auto.
Qed.

Lemma fetch_complete (evs : list Pool.EventInfo) (ev : Pool.EventInfo)
  (matches : list Pool.RawMatch) (videos : list MatchVideo) :
  In ev evs ->
  Pool.get_event_matches client (Pool.key ev) = Some matches ->
  Pool.extract_videos_from_matches py_int matches = Some videos ->
  forall v, In v videos ->
            In v (Pool._fetch_videos_for_events py_int client evs).
Proof.
  intros Hev G X v Hv. induction evs as [|e rest IH]; [destruct Hev|].
  cbn. destruct Hev as [-> | Hev].
  - rewrite G, X. apply in_app_iff. now left.
  - specialize (IH Hev).
    destruct (Pool.get_event_matches client (Pool.key e)) as [ms|]; [|exact IH].
    destruct (Pool.extract_videos_from_matches py_int ms); [|exact IH].
    apply in_app_iff. now right.
Qed.

Lemma existsb_eqb_In (x : string) (l : list string) :
  existsb (String.eqb x) l = true <-> In x l.
Proof.
  rewrite existsb_exists. split.
  - intros (y & Hin & E). apply String.eqb_eq in E. now subst.
  - intros Hin. exists x. split; [exact Hin | apply String.eqb_refl].
Qed.

Lemma dedupe_facts (videos : list MatchVideo) :
  forall seen,
    NoDup (map youtube_id (Pool.dedupe seen videos)) /\
    (forall v, In v (Pool.dedupe seen videos) ->
               In v videos /\ ~ In (youtube_id v) seen) /\
    (forall v, In v videos ->
               In (youtube_id v) seen \/
               In (youtube_id v) (map youtube_id (Pool.dedupe seen videos))).
Proof.
  induction videos as [|x rest IH]; intros seen; cbn.
  - split; [constructor | split; intros v []].
  - destruct (existsb (String.eqb (youtube_id x)) seen) eqn:E.
    + apply existsb_eqb_In in E.
      destruct (IH seen) as (H1 & H2 & H3).
      split; [exact H1 | split].
      * intros v Hv. destruct (H2 v Hv) as [Hin Hn].
        split; [now right | exact Hn].
      * intros v [<- | Hv]; [now left | now apply H3].
    + assert (Hx : ~ In (youtube_id x) seen).
      { intros H. apply existsb_eqb_In in H. congruence. }
      destruct (IH (youtube_id x :: seen)) as (H1 & H2 & H3).
      split; [|split].
      * cbn. constructor; [|exact H1]. intros Hin.
        apply in_map_iff in Hin as (v & Hid & Hv).
        destruct (H2 v Hv) as [_ Hn]. apply Hn. left. now symmetry.
      * intros v [<- | Hv]; [split; [now left | exact Hx]|].
        destruct (H2 v Hv) as [Hin Hn].
        split; [now right|]. intros Hs. apply Hn. now right.
      * intros v [<- | Hv]; [right; now left|].
        destruct (H3 v Hv) as [[Hs | Hs] | Hs].
        -- right. left. exact Hs.
        -- now left.
        -- right. now right.
Qed.

(** X18. The list [build_pool] hands to the shuffle holds no YouTube id
    twice. Each of its videos has a non-empty id, was extracted from the
    matches of one of the resolved events, has one of the configured
    competition levels when any is configured, and belongs to a match of a
    configured team when any is configured. *)
Theorem videos_to_shuffle_sound (pool : list MatchVideo) :
  Pool.videos_to_shuffle py_int client filters = Some pool ->
  NoDup (map youtube_id pool) /\
  forall v, In v pool ->
            youtube_id v <> "" /\
            (exists evs ev matches videos,
                Pool._resolve_events py_int client filters = Some evs /\
                In ev evs /\
                Pool.get_event_matches client (Pool.key ev) = Some matches /\
                Pool.extract_videos_from_matches py_int matches
                = Some videos /\
                In v videos) /\
            (Pool.comp_levels filters <> [] ->
             In (comp_level v) (Pool.comp_levels filters)) /\
            (forall keys,
                Pool._fetch_team_match_keys py_int client filters = Some keys ->
                In (match_key v) keys).
Proof.
  unfold Pool.videos_to_shuffle.
  destruct (Pool._resolve_events py_int client filters) as [evs|];
    [|discriminate].
  intros [= <-].
  match goal with
  | |- context [Pool.dedupe [] ?l] =>
      destruct (dedupe_facts l []) as (Hnd & Hsub & _); set (vs := l) in *
  end.
  split; [exact Hnd|]. intros v Hv. destruct (Hsub v Hv) as [Hin _].
  assert (Hfetched : In v (Pool._fetch_videos_for_events py_int client evs) /\
                     (Pool.comp_levels filters <> [] ->
                      In (comp_level v) (Pool.comp_levels filters)) /\
                     (forall keys,
                         Pool._fetch_team_match_keys py_int client filters
                         = Some keys -> In (match_key v) keys)).
  { subst vs.
    destruct (Pool.comp_levels filters) as [|cl cls] eqn:CL.
    - destruct (Pool._fetch_team_match_keys py_int client filters)
        as [keys|] eqn:TK.
      + apply filter_In in Hin as [Hin Hk]. apply existsb_eqb_In in Hk.
        repeat split; [exact Hin | congruence | now intros keys' [= <-]].
      + repeat split; [exact Hin | congruence | discriminate].
    - apply filter_In in Hin as [Hin Hc]. apply existsb_eqb_In in Hc.
      destruct (Pool._fetch_team_match_keys py_int client filters)
        as [keys|] eqn:TK.
      + apply filter_In in Hin as [Hin Hk]. apply existsb_eqb_In in Hk.
        repeat split; [exact Hin | intros _; exact Hc
                      | now intros keys' [= <-]].
      + repeat split; [exact Hin | intros _; exact Hc | discriminate]. }
  destruct Hfetched as (Hf & Hc & Hk).
  destruct (fetch_sound evs v Hf) as (ev & ms & videos & He & G & X & Hvv).
  destruct (extract_sound ms videos X v Hvv) as [Hid _].
  split; [exact Hid|]. split; [|split; assumption].
  exists evs, ev, ms, videos. auto.
Qed.

(** X19. Neither the failure of another event nor the de-duplication loses
    a YouTube id: with no team and no level filter, every video of an event
    whose request and extraction both succeed has its id in the list handed
    to the shuffle. *)
Theorem videos_to_shuffle_complete (evs : list Pool.EventInfo)
  (ev : Pool.EventInfo) (matches : list Pool.RawMatch)
  (videos : list MatchVideo) :
  Pool.teams filters = [] -> Pool.comp_levels filters = [] ->
  Pool._resolve_events py_int client filters = Some evs ->
  In ev evs ->
  Pool.get_event_matches client (Pool.key ev) = Some matches ->
  Pool.extract_videos_from_matches py_int matches = Some videos ->
  exists pool,
    Pool.videos_to_shuffle py_int client filters = Some pool /\
    forall v, In v videos -> In (youtube_id v) (map youtube_id pool).
Proof.
  intros Ht Hc Hr Hev G X. unfold Pool.videos_to_shuffle.
  rewrite Hr. unfold Pool._fetch_team_match_keys. rewrite Ht, Hc.
  eexists. split; [reflexivity|]. intros v Hv.
  pose proof (fetch_complete evs ev matches videos Hev G X v Hv) as Hin.
  destruct (dedupe_facts (Pool._fetch_videos_for_events py_int client evs) [])
    as (_ & _ & H3).
  destruct (H3 v Hin) as [[] | H]. exact H.
Qed.

Lemma videos_of_match_none (m : Pool.RawMatch) (raw : list Pool.RawVideo) :
  Pool.videos_of_match py_int m raw = None <->
  Pool.year_of py_int (Pool.get_or (Pool.raw_event_key m) "") = None /\
  exists rv, In rv raw /\ Pool.video_type rv = Some "youtube" /\
             Pool.get_or (Pool.video_key rv) "" <> "".
Proof.
  induction raw as [|rv raw IH]; cbn.
  - split; [discriminate | intros (_ & rv & [] & _)].
  - destruct (Pool.video_type rv) as [t|] eqn:T; cbn.
    + destruct (String.eqb t "youtube") eqn:Y; cbn.
      * apply String.eqb_eq in Y. subst t.
        destruct (nonempty (Pool.get_or (Pool.video_key rv) "")) eqn:N; cbn.
        -- apply nonempty_iff in N.
           destruct (Pool.year_of py_int _) as [y|] eqn:Yr.
           ++ destruct (Pool.videos_of_match py_int m raw).
              ** split; [discriminate | intros [H _]; discriminate].
              ** destruct (proj1 IH eq_refl) as [H _]. discriminate.
           ++ split; [|reflexivity]. intros _. split; [reflexivity|].
              exists rv. auto.
        -- rewrite IH. split.
           ++ intros (H & x & Hx & Hx'). split; [exact H|]. exists x. auto.
           ++ intros (H & x & [<- | Hx] & Ht & Hk).
              ** apply nonempty_iff in Hk. congruence.
              ** split; [exact H|]. now exists x.
      * apply String.eqb_neq in Y. rewrite IH. split.
        -- intros (H & x & Hx & Hx'). split; [exact H|]. exists x. auto.
        -- intros (H & x & [<- | Hx] & Ht & Hk); [congruence|].
           split; [exact H|]. now exists x.
    + rewrite IH. split.
      * intros (H & x & Hx & Hx'). split; [exact H|]. exists x. auto.
      * intros (H & x & [<- | Hx] & Ht & Hk); [congruence|].
        split; [exact H|]. now exists x.
Qed.

(** X20. On matches whose keys, where present, hold values of the expected
    types, [extract_videos_from_matches] raises exactly when some match has a
    YouTube video with a non-empty key and an [event_key] of four characters
    or more whose first four are not a number for [int]; a match without
    such a video never makes it raise. [_fetch_videos_for_events] then
    keeps no video of that event. *)
Theorem extract_videos_raises (matches : list Pool.RawMatch) :
  (Pool.extract_videos_from_matches py_int matches = None <->
   exists m rv,
     In m matches /\
     In rv (Pool.get_or (Pool.raw_videos m) []) /\
     Pool.video_type rv = Some "youtube" /\
     Pool.get_or (Pool.video_key rv) "" <> "" /\
     (4 <= String.length (Pool.get_or (Pool.raw_event_key m) ""))%nat /\
     py_int (Pool.first4 (Pool.get_or (Pool.raw_event_key m) "")) = None) /\
  (forall ev,
      Pool.get_event_matches client (Pool.key ev) = Some matches ->
      Pool.extract_videos_from_matches py_int matches = None ->
      Pool._fetch_videos_for_events py_int client [ev] = []).
Proof.
  split.
  - induction matches as [|m rest IH]; cbn.
    + split; [discriminate | intros (m & rv & [] & _)].
    + destruct (Pool.videos_of_match py_int m _) as [videos|] eqn:V.
      * assert (Hm : ~ (Pool.year_of py_int
                          (Pool.get_or (Pool.raw_event_key m) "") = None /\
                        exists rv,
                          In rv (Pool.get_or (Pool.raw_videos m) []) /\
                          Pool.video_type rv = Some "youtube" /\
                          Pool.get_or (Pool.video_key rv) "" <> "")).
        { intros H. apply videos_of_match_none in H. congruence. }
        destruct (Pool.extract_videos_from_matches py_int rest) eqn:R; split.
        -- discriminate.
        -- intros (x & rv & [<- | Hx] & Hrv & Ht & Hk & Hlen & Hint).
           ++ elim Hm. split; [|now exists rv].
              unfold Pool.year_of. apply Nat.leb_le in Hlen.
              now rewrite Hlen.
           ++ assert (Some l = None)
                by (apply IH; exists x, rv; repeat split; assumption).
              discriminate.
        -- intros _. destruct IH as [IH _].
           destruct (IH eq_refl) as (x & rv & Hx & H').
           exists x, rv. split; [now right | exact H'].
        -- reflexivity.
      * split; [|reflexivity]. intros _.
        apply videos_of_match_none in V as (Hy & rv & Hrv & Ht & Hk).
        unfold Pool.year_of in Hy.
        destruct (4 <=? String.length _)%nat eqn:L; [|discriminate].
        apply Nat.leb_le in L. exists m, rv.
        repeat split; try assumption. now left.
  - intros ev G X. cbn. now rewrite G, X.
Qed.

End PoolFacts.

Lemma videos_to_shuffle_raises_witness :
  Pool.videos_to_shuffle int_2024 client_down
    (filters_2024 ["qm"; "qf"; "sf"; "f"]) = None.
Proof.
  apply (videos_to_shuffle_raises int_2024 client_down
           (filters_2024 ["qm"; "qf"; "sf"; "f"])).
  split; [reflexivity|]. exists 2024. split; [now left | reflexivity].
Defined.

Lemma videos_to_shuffle_sound_witness :
  NoDup (map youtube_id [qm1]).
Proof.
  apply (videos_to_shuffle_sound int_2024 client_up
           (filters_2024 ["qm"; "qf"; "sf"; "f"]) [qm1]).
  reflexivity.
Defined.

Lemma videos_to_shuffle_complete_witness :
  exists pool,
    Pool.videos_to_shuffle int_2024 client_up (filters_2024 []) = Some pool /\
    forall v, In v [qm1] -> In (youtube_id v) (map youtube_id pool).
Proof.
  apply (videos_to_shuffle_complete int_2024 client_up (filters_2024 [])
           [txda] txda [raw_qm1] [qm1]); try reflexivity.
  now left.
Defined.

Lemma extract_videos_raises_witness :
  Pool.extract_videos_from_matches int_2024 [raw_qm1; raw_bad_key] = None.
Proof.
  apply (proj1 (extract_videos_raises int_2024 client_up
                  [raw_qm1; raw_bad_key])).
  exists raw_bad_key,
    {| Pool.video_type := Some "youtube";
       Pool.video_key := Some "dQw4w9WgXcQ" |}.
  repeat split.
  - right. now left.
  - now left.
  - discriminate.
  - cbn. lia.
Defined.

(** ** Environment variables in the configuration *)

Section EnvFacts.

Variable environ : string -> option string.

Lemma sub_literal_prefix (pre s : string) :
  Env.free_of Env.dollar pre = true ->
  Env.sub environ None (pre ++ s)
  = match Env.sub environ None s with
    | Env.Ok r => Env.Ok (pre ++ r)
    | Env.NotSet var => Env.NotSet var
    end.
Proof.
  induction pre as [|c pre IH]; intros H.
  - cbn. now destruct (Env.sub environ None s).
  - cbn in H. apply andb_true_iff in H as [Hc Hpre].
    apply negb_true_iff in Hc. change (Ascii.eqb c Env.dollar = false) in Hc.
    change (String c pre ++ s) with (String c (pre ++ s)).
    cbn [Env.sub]. rewrite Hc, (IH Hpre).
    now destruct (Env.sub environ None s).
Qed.

Lemma sub_name (name : string) :
  forall acc post,
    Env.free_of Env.rbrace name = true ->
    Env.sub environ (Some acc) (name ++ String Env.rbrace post)
    = Env.sub environ (Some (acc ++ name)) (String Env.rbrace post).
Proof.
  induction name as [|c name IH]; intros acc post H.
  - now rewrite PyStrFacts.append_nil_r.
  - cbn in H. apply andb_true_iff in H as [Hc Hname].
    apply negb_true_iff in Hc. change (Ascii.eqb c Env.rbrace = false) in Hc.
    change (String c name ++ String Env.rbrace post)
      with (String c (name ++ String Env.rbrace post)).
    cbn [Env.sub]. rewrite Hc, (IH _ _ Hname).
    now rewrite PyStrFacts.append_assoc.
Qed.

(** X21. In a string that starts with text free of dollar signs followed by
    [${name}], the reference is replaced by the value of [name] in the
    environment, as it is: the value is not searched for references in its
    turn, and the rest of the string is resolved on its own. When [name] is
    not set the call raises, naming it. *)
Theorem sub_replaces_reference (pre name post : string) :
  Env.free_of Env.dollar pre = true ->
  name <> "" ->
  Env.free_of Env.rbrace name = true ->
  Env.sub environ None (pre ++ "${" ++ name ++ "}" ++ post)
  = match environ name with
    | None => Env.NotSet name
    | Some env_val =>
        match Env.sub environ None post with
        | Env.Ok r => Env.Ok (pre ++ env_val ++ r)
        | Env.NotSet var => Env.NotSet var
        end
    end.
Proof.
  intros Hpre Hne Hname. rewrite (sub_literal_prefix _ _ Hpre).
  change ("${" ++ name ++ "}" ++ post)
    with (String Env.dollar (String Env.lbrace
                               (name ++ String Env.rbrace post))).
  cbn [Env.sub]. change (Ascii.eqb Env.dollar Env.dollar) with true.
  change (Ascii.eqb Env.lbrace Env.lbrace) with true. cbn match.
  rewrite (sub_name name "" post Hname). cbn [Env.sub append].
  change (Ascii.eqb Env.rbrace Env.rbrace) with true. cbn match.
  destruct name as [|c name]; [congruence|].
  destruct (environ (String c name)); [|reflexivity].
  now destruct (Env.sub environ None post).
Qed.

Lemma occurs_after (p pre t : string) :
  PyStr.occurs p t -> PyStr.occurs p (pre ++ t).
Proof.
  intros (a & b & ->). exists (pre ++ a), b.
  now rewrite PyStrFacts.append_assoc.
Qed.

Lemma sub_outcome (n : nat) :
  forall value inside,
    (String.length value <= n)%nat ->
    (forall var,
        Env.sub environ inside value = Env.NotSet var ->
        environ var = None /\ var <> "" /\
        PyStr.occurs ("${" ++ var ++ "}")
          match inside with
          | None => value
          | Some name => "${" ++ name ++ value
          end) /\
    ((forall var, var <> "" -> environ var <> None) ->
     exists r, Env.sub environ inside value = Env.Ok r) /\
    (inside = None -> Env.free_of Env.dollar value = true ->
     Env.sub environ inside value = Env.Ok value).
Proof.
  induction n as [|n IH]; intros value inside Hlen.
  - destruct value; [|cbn in Hlen; lia].
    destruct inside; cbn; (split; [discriminate|]);
      (split; [intros _; now eexists | try discriminate; reflexivity]).
  - destruct value as [|c rest].
    { destruct inside; cbn; (split; [discriminate|]);
        (split; [intros _; now eexists | try discriminate; reflexivity]). }
    cbn [String.length] in Hlen.
    assert (Hrest : (String.length rest <= n)%nat) by lia.
    destruct (IH rest None Hrest) as (L1 & L2 & L3).
    destruct inside as [name|]; cbn [Env.sub].
    + destruct (Ascii.eqb c Env.rbrace) eqn:R.
      * apply Ascii.eqb_eq in R. subst c.
        destruct name as [|x name].
        -- split; [|split; [|discriminate]].
           ++ intros var.
              destruct (Env.sub environ None rest); [discriminate|].
              intros [= ->]. destruct (L1 var eq_refl) as (H1 & H2 & H3).
              repeat split; auto. now apply (occurs_after _ "${}").
           ++ intros Hall. destruct (L2 Hall) as [r ->]. now eexists.
        -- destruct (environ (String x name)) eqn:E.
           ++ split; [|split; [|discriminate]].
              ** intros var.
                 destruct (Env.sub environ None rest); [discriminate|].
                 intros [= ->]. destruct (L1 var eq_refl) as (H1 & H2 & H3).
                 repeat split; auto.
                 apply (occurs_after _ ("${" ++ String x name ++ "}")) in H3.
                 cbn [append] in H3.
                 rewrite PyStrFacts.append_assoc in H3. exact H3.
              ** intros Hall. destruct (L2 Hall) as [r ->]. now eexists.
           ++ split; [|split; [|discriminate]].
              ** intros var [= <-]. repeat split; [exact E | discriminate|].
                 exists "", rest. cbn [append].
                 now rewrite PyStrFacts.append_assoc.
              ** intros Hall.
                 elim (Hall (String x name)); [discriminate | exact E].
      * destruct (IH rest (Some (name ++ String c "")) Hrest)
          as (S1 & S2 & _).
        split; [|split; [exact S2 | discriminate]].
        intros var Hv. destruct (S1 var Hv) as (H1 & H2 & H3).
        repeat split; auto.
        rewrite PyStrFacts.append_assoc in H3. exact H3.
    + assert (Hlit :
               (forall var,
                   match Env.sub environ None rest with
                   | Env.Ok r => Env.Ok (String c r)
                   | Env.NotSet v => Env.NotSet v
                   end = Env.NotSet var ->
                   environ var = None /\ var <> "" /\
                   PyStr.occurs ("${" ++ var ++ "}") (String c rest)) /\
               ((forall var, var <> "" -> environ var <> None) ->
                exists r,
                  match Env.sub environ None rest with
                  | Env.Ok r => Env.Ok (String c r)
                  | Env.NotSet v => Env.NotSet v
                  end = Env.Ok r)).
      { split.
        - intros var. destruct (Env.sub environ None rest); [discriminate|].
          intros [= ->]. destruct (L1 var eq_refl) as (H1 & H2 & H3).
          repeat split; auto. now apply (occurs_after _ (String c "")).
        - intros Hall. destruct (L2 Hall) as [r ->]. now eexists. }
      destruct Hlit as [Hl1 Hl2].
      destruct (Ascii.eqb c Env.dollar) eqn:D.
      * destruct rest as [|c' rest'].
        -- split; [exact Hl1 | split; [exact Hl2|]].
           intros _ H. cbn [Env.free_of] in H. rewrite D in H. discriminate.
        -- destruct (Ascii.eqb c' Env.lbrace) eqn:B.
           ++ cbn [String.length] in Hrest.
              destruct (IH rest' (Some "")) as (S1 & S2 & _); [lia|].
              split; [|split; [exact S2|]].
              ** intros var Hv. destruct (S1 var Hv) as (H1 & H2 & H3).
                 apply Ascii.eqb_eq in D, B. subst c c'.
                 repeat split; auto.
              ** intros _ H. cbn [Env.free_of] in H. rewrite D in H. discriminate.
           ++ split; [exact Hl1 | split; [exact Hl2|]].
              intros _ H. cbn [Env.free_of] in H. rewrite D in H. discriminate.
      * split; [exact Hl1 | split; [exact Hl2|]].
        intros _ H. cbn [Env.free_of] in H. rewrite D in H.
        cbn [negb andb] in H. now rewrite (L3 eq_refl H).
Qed.

(** X22. When a string makes the call raise, the variable named is one the
    string refers to as [${var}], its name is not empty, and it is not set;
    with every variable set the call returns. A string without a dollar
    sign comes back as it is. *)
Theorem sub_raises_for_unset (value : string) :
  (forall var,
      Env.sub environ None value = Env.NotSet var ->
      environ var = None /\ var <> "" /\
      PyStr.occurs ("${" ++ var ++ "}") value) /\
  ((forall var, var <> "" -> environ var <> None) ->
   exists r, Env.sub environ None value = Env.Ok r) /\
  (Env.free_of Env.dollar value = true ->
   Env.sub environ None value = Env.Ok value).
Proof.
  destruct (sub_outcome (String.length value) value None (le_n _))
    as (H1 & H2 & H3).
  split; [exact H1 | split; [exact H2 | exact (H3 eq_refl)]].
Qed.

Lemma resolve_dollar_free :
  forall v, Env.dollar_free v = true ->
            Env._resolve_env_vars environ v = Env.Ok v.
Proof.
  fix IH 1. intros [s|items|items|x] H.
  - cbn in *.
    destruct (sub_outcome (String.length s) s None (le_n _)) as (_ & _ & H3).
    now rewrite (H3 eq_refl H).
  - cbn [Env._resolve_env_vars].
    match goal with
    | |- match ?over items with _ => _ end = _ =>
        assert (E : over items = Env.Ok items); [|now rewrite E]
    end.
    cbn [Env.dollar_free] in H.
    induction items as [|[k v] rest IHl]; [reflexivity|].
    cbn [forallb snd] in H. apply andb_true_iff in H as [Hv Hrest].
    rewrite (IH v Hv), (IHl Hrest). reflexivity.
  - cbn [Env._resolve_env_vars].
    match goal with
    | |- match ?over items with _ => _ end = _ =>
        assert (E : over items = Env.Ok items); [|now rewrite E]
    end.
    cbn [Env.dollar_free] in H.
    induction items as [|v rest IHl]; [reflexivity|].
    cbn [forallb] in H. apply andb_true_iff in H as [Hv Hrest].
    rewrite (IH v Hv), (IHl Hrest). reflexivity.
  - reflexivity.
Qed.

(** X23. A configuration in which no string holds a dollar sign comes back
    from [_resolve_env_vars] as it is, whatever the environment: nothing is
    looked up and nothing can raise. *)
Theorem resolve_env_vars_without_references (v : Env.Yaml) :
  Env.dollar_free v = true ->
  Env._resolve_env_vars environ v = Env.Ok v.
Proof. apply resolve_dollar_free. Qed.

End EnvFacts.

Lemma sub_replaces_reference_witness :
  Env.sub environ_with_key None "key: ${TBA_KEY}!" = Env.Ok "key: k3y${X}!".
Proof.
  exact (sub_replaces_reference environ_with_key "key: " "TBA_KEY" "!"
           eq_refl ltac:(discriminate) eq_refl).
Defined.

Lemma sub_raises_for_unset_witness :
  environ_with_key "HOME" = None.
Proof.
  apply (proj1 (sub_raises_for_unset environ_with_key "dir: ${HOME}/frc")
           "HOME").
  reflexivity.
Defined.

Lemma resolve_env_vars_without_references_witness :
  Env._resolve_env_vars environ_with_key
    (Env.YDict [("stream", Env.YDict [("hw_accel", Env.YStr "auto");
                                      ("max_retries_per_video",
                                       Env.YOther (Env.SInt 2))]);
                ("years", Env.YList [Env.YOther (Env.SInt 2024)])])
  = Env.Ok
      (Env.YDict [("stream", Env.YDict [("hw_accel", Env.YStr "auto");
                                        ("max_retries_per_video",
                                         Env.YOther (Env.SInt 2))]);
                  ("years", Env.YList [Env.YOther (Env.SInt 2024)])]).
Proof.
  apply (resolve_env_vars_without_references environ_with_key).
  reflexivity.
Defined.

(** ** The TBA client's cache *)

Section TbaFacts.

Variable Data : Type.

(** X24. Data that [_get] has stored with its ETag comes back from the
    cache: after a response with a body and a non-empty ETag, the next
    request for the same path sends that ETag as [If-None-Match], and when
    the service answers 304 the call returns the very data of the earlier
    response and leaves the cache as it is. *)
Theorem get_cache_round_trip
  (server1 server2 : string -> option string -> option (Tba.Response Data))
  (elapsed1 elapsed2 : Q) (c : Tba.Client Data) (path etag : string)
  (data : Data) (resp1 resp2 : Tba.Response Data) :
  let url := Tba._base_url Data c ++ path in
  let call1 := Tba._get Data server1 elapsed1 c path in
  server1 url match Tba._etag_cache Data c url with
              | Some (cached, _) => Some cached
              | None => None
              end = Some resp1 ->
  Tba.status_code Data resp1 = 200 ->
  Tba.json Data resp1 = Some data ->
  Tba.etag_header Data resp1 = Some etag ->
  etag <> "" ->
  server2 url (Some etag) = Some resp2 ->
  Tba.status_code Data resp2 = 304 ->
  let call2 :=
    Tba._get Data server2 elapsed2 (Tba.client_after Data call1) path in
  Tba.outcome Data call1 = Tba.Returned Data data /\
  Tba.if_none_match Data call2 = Some etag /\
  Tba.outcome Data call2 = Tba.Returned Data data /\
  Tba.client_after Data call2 = Tba.client_after Data call1.
Proof.
  cbv zeta. intros S1 Hcode Hjson Hetag Hne S2 H304.
  apply nonempty_iff in Hne.
  assert (E1 : Tba._get Data server1 elapsed1 c path
               = {| Tba.paused :=
                      if Qle_bool (Tba._delay Data c) elapsed1 then None
                      else Some (Tba._delay Data c - elapsed1)%Q;
                    Tba.requested := Tba._base_url Data c ++ path;
                    Tba.if_none_match :=
                      match Tba._etag_cache Data c
                              (Tba._base_url Data c ++ path) with
                      | Some (cached, _) => Some cached
                      | None => None
                      end;
                    Tba.outcome := Tba.Returned Data data;
                    Tba.client_after :=
                      Tba.store Data (Tba._base_url Data c ++ path) etag
                        data c |}).
  { unfold Tba._get. rewrite S1, Hcode, Hjson, Hetag, Hne. reflexivity. }
  rewrite E1. cbn [Tba.outcome Tba.client_after].
  unfold Tba._get. cbn [Tba._base_url Tba.store Tba._etag_cache].
  rewrite String.eqb_refl, S2, H304. cbn. auto.
Qed.

(** X25. A call of [_get] touches the cache at the requested URL only, and
    not at all when it fails; it sends [If-None-Match] exactly when that URL
    is cached, with the cached ETag; it raises [KeyError] only on a 304
    answer to a URL it holds nothing for; and the pause it takes for the
    rate limit, if any, is positive and brings the time since the last
    request up to the configured delay. *)
Theorem get_cache_frame
  (server : string -> option string -> option (Tba.Response Data))
  (elapsed : Q) (c : Tba.Client Data) (path : string) :
  let call := Tba._get Data server elapsed c path in
  Tba.requested Data call = Tba._base_url Data c ++ path /\
  (forall u, u <> Tba.requested Data call ->
             Tba._etag_cache Data (Tba.client_after Data call) u
             = Tba._etag_cache Data c u) /\
  (forall why, Tba.outcome Data call = Tba.Failed Data why ->
               Tba.client_after Data call = c) /\
  Tba.if_none_match Data call
  = match Tba._etag_cache Data c (Tba.requested Data call) with
    | Some (etag, _) => Some etag
    | None => None
    end /\
  (forall url, Tba.outcome Data call = Tba.Failed Data (Tba.KeyError url) ->
               url = Tba.requested Data call /\
               Tba._etag_cache Data c url = None /\
               exists resp, server url None = Some resp /\
                            Tba.status_code Data resp = 304) /\
  (forall p, Tba.paused Data call = Some p ->
             (0 < p)%Q /\ (p + elapsed == Tba._delay Data c)%Q).
Proof.
  cbv zeta.
  assert (Hcases :
           forall P : Tba.Call Data -> Prop,
             (forall o c',
                 (c' = c \/
                  exists resp e d,
                    server (Tba._base_url Data c ++ path)
                      match Tba._etag_cache Data c
                              (Tba._base_url Data c ++ path) with
                      | Some (cached, _) => Some cached
                      | None => None
                      end = Some resp /\
                    o = Tba.Returned Data d /\
                    c' = Tba.store Data (Tba._base_url Data c ++ path) e d c) ->
                 (forall url, o = Tba.Failed Data (Tba.KeyError url) ->
                              url = Tba._base_url Data c ++ path /\
                              Tba._etag_cache Data c url = None /\
                              exists resp,
                                server url None = Some resp /\
                                Tba.status_code Data resp = 304) ->
                 P {| Tba.paused :=
                        if Qle_bool (Tba._delay Data c) elapsed then None
                        else Some (Tba._delay Data c - elapsed)%Q;
                      Tba.requested := Tba._base_url Data c ++ path;
                      Tba.if_none_match :=
                        match Tba._etag_cache Data c
                                (Tba._base_url Data c ++ path) with
                        | Some (cached, _) => Some cached
                        | None => None
                        end;
                      Tba.outcome := o;
                      Tba.client_after := c' |}) ->
             P (Tba._get Data server elapsed c path)).
  { intros P HP. unfold Tba._get.
    destruct (server _ _) as [resp|] eqn:S.
    - destruct (Tba.status_code Data resp =? 304) eqn:C304.
      + apply Z.eqb_eq in C304.
        destruct (Tba._etag_cache Data c _) as [[e d]|] eqn:K.
        * apply HP; [now left | discriminate].
        * apply HP; [now left|]. intros u [= <-].
          split; [reflexivity|]. split; [exact K|]. now exists resp.
      + destruct ((400 <=? Tba.status_code Data resp)
                  && (Tba.status_code Data resp <? 600));
          [apply HP; [now left | discriminate]|].
        destruct (Tba.json Data resp) as [d|];
          [|apply HP; [now left | discriminate]].
        destruct (Tba.etag_header Data resp) as [e|];
          [|apply HP; [now left | discriminate]].
        destruct (nonempty e); [|apply HP; [now left | discriminate]].
        apply HP; [|discriminate]. right. now exists resp, e, d.
    - apply HP; [now left | discriminate]. }
  apply Hcases. intros o c' Hc Hkey. cbn.
  split; [reflexivity|]. split; [|split; [|split; [reflexivity|split]]].
  - intros u Hu. destruct Hc as [-> | (resp & e & d & _ & _ & ->)];
      [reflexivity|].
    cbn. apply String.eqb_neq in Hu. now rewrite Hu.
  - intros why ->. destruct Hc as [-> | (resp & e & d & _ & Ho & _)];
      [reflexivity | discriminate].
  - exact Hkey.
  - intros p. destruct (Qle_bool _ _) eqn:D; [discriminate|].
    intros [= <-].
    assert (~ (Tba._delay Data c <= elapsed)%Q).
    { intros H. apply Qle_bool_iff in H. congruence. }
    split; lra.
Qed.

End TbaFacts.

Lemma get_cache_round_trip_witness :
  Tba.outcome nat
    (Tba._get nat
       (fun _ _ => Some {| Tba.status_code := 304; Tba.json := None;
                           Tba.etag_header := None |})
       1
       (Tba.client_after nat
          (Tba._get nat
             (fun _ _ => Some {| Tba.status_code := 200;
                                 Tba.json := Some 7%nat;
                                 Tba.etag_header := Some "W/1" |})
             0
             {| Tba._base_url := "https://www.thebluealliance.com/api/v3";
                Tba._delay := 1 # 2;
                Tba._etag_cache := fun _ => None |}
             "/events/2024"))
       "/events/2024")
  = Tba.Returned nat 7%nat.
Proof.
  apply (get_cache_round_trip nat
           (fun _ _ => Some {| Tba.status_code := 200; Tba.json := Some 7%nat;
                               Tba.etag_header := Some "W/1" |})
           (fun _ _ => Some {| Tba.status_code := 304; Tba.json := None;
                               Tba.etag_header := None |})
           0 1
           {| Tba._base_url := "https://www.thebluealliance.com/api/v3";
              Tba._delay := 1 # 2;
              Tba._etag_cache := fun _ => None |}
           "/events/2024" "W/1" 7%nat
           {| Tba.status_code := 200; Tba.json := Some 7%nat;
              Tba.etag_header := Some "W/1" |}
           {| Tba.status_code := 304; Tba.json := None;
              Tba.etag_header := None |});
    try reflexivity.
  discriminate.
Defined.

Lemma get_cache_frame_witness :
  (0 < 1 # 2)%Q /\ ((1 # 2) + 0 == 1 # 2)%Q.
Proof.
  apply (get_cache_frame nat
           (fun _ _ => Some {| Tba.status_code := 200; Tba.json := Some 7%nat;
                               Tba.etag_header := Some "W/1" |})
           0
           {| Tba._base_url := "https://www.thebluealliance.com/api/v3";
              Tba._delay := 1 # 2;
              Tba._etag_cache := fun _ => None |}
           "/events/2024").
  reflexivity.
Defined.

(** ** More on the classifier and on one run *)

Lemma lower_upper_ascii (c : ascii) :
  PyStr.lower_ascii (Validation.upper_ascii c) = PyStr.lower_ascii c.
Proof. destruct c as [[] [] [] [] [] [] [] []]; reflexivity. Qed.

Lemma lower_upper (s : string) :
  PyStr.lower (Validation.upper s) = PyStr.lower s.
Proof.
  induction s as [|c s IH]; [reflexivity|].
  cbn. now rewrite lower_upper_ascii, IH.
Qed.

Lemma lower_join_upper (l : list string) :
  PyStr.lower (PyStr.join PyStr.nl (map Validation.upper l))
  = PyStr.lower (PyStr.join PyStr.nl l).
Proof.
  induction l as [|x l IH]; [reflexivity|].
  destruct l as [|y l]; [apply lower_upper|].
  change (map Validation.upper (x :: y :: l))
    with (Validation.upper x :: Validation.upper y
            :: map Validation.upper l).
  cbn [PyStr.join] in *. rewrite !PyStrFacts.lower_app, lower_upper.
  change (Validation.upper y :: map Validation.upper l)
    with (map Validation.upper (y :: l)) in IH.
  cbn [map PyStr.join] in IH. now rewrite IH.
Qed.

(** X26. The classifier does not tell upper case from lower case: putting
    every line of both buffers in upper case leaves its verdict as it
    was. *)
Theorem classify_error_ignores_case (retrieval encode : list string) :
  _classify_error (map Validation.upper retrieval)
                  (map Validation.upper encode)
  = _classify_error retrieval encode.
Proof.
  unfold _classify_error. now rewrite !lower_join_upper.
Qed.

Lemma startswith_before_newline (p : string) :
  forall x b,
    Env.free_of (ascii_of_N 10) p = true ->
    PyStr.startswith p (x ++ String (ascii_of_N 10) b) = PyStr.startswith p x.
Proof.
  induction p as [|a p IH]; intros x b H; [now destruct x|].
  cbn [Env.free_of] in H. apply andb_true_iff in H as [Ha Hp].
  apply negb_true_iff in Ha. destruct x as [|c x].
  - cbn in Ha |- *. now rewrite Ha.
  - cbn [append PyStr.startswith]. now rewrite (IH x b Hp).
Qed.

Lemma str_in_across_newline (p : string) :
  forall a b,
    Env.free_of (ascii_of_N 10) p = true ->
    PyStr.str_in p (a ++ String (ascii_of_N 10) b)
    = PyStr.str_in p a || PyStr.str_in p b.
Proof.
  intros a b H. induction a as [|c a IH].
  - pose proof (startswith_before_newline p "" b H) as E.
    cbn [append] in E |- *. cbn [PyStr.str_in]. rewrite E.
    now rewrite orb_false_r.
  - change (String c a ++ String (ascii_of_N 10) b)
      with (String c (a ++ String (ascii_of_N 10) b)).
    cbn [PyStr.str_in]. rewrite IH.
    change (String c (a ++ String (ascii_of_N 10) b))
      with (String c a ++ String (ascii_of_N 10) b).
    rewrite (startswith_before_newline p (String c a) b H).
    now rewrite orb_assoc.
Qed.

Lemma str_in_lines (p : string) (l : list string) :
  Env.free_of (ascii_of_N 10) p = true -> p <> "" ->
  PyStr.str_in p (PyStr.lower (PyStr.join PyStr.nl l))
  = existsb (fun x => PyStr.str_in p (PyStr.lower x)) l.
Proof.
  intros Hp Hne. induction l as [|x l IH].
  - destruct p; [congruence | reflexivity].
  - destruct l as [|y l].
    + cbn. now rewrite orb_false_r.
    + assert (Hj : PyStr.join PyStr.nl (x :: y :: l)
                   = x ++ PyStr.nl ++ PyStr.join PyStr.nl (y :: l))
        by reflexivity.
      rewrite Hj, !PyStrFacts.lower_app.
      change (PyStr.lower PyStr.nl) with (String (ascii_of_N 10) "").
      cbn [append].
      rewrite (str_in_across_newline p _ _ Hp), IH. reflexivity.
Qed.

Lemma any_in_lines (phrases : list string) (l : list string) :
  forallb (fun p => Env.free_of (ascii_of_N 10) p && nonempty p) phrases
  = true ->
  PyStr.any_in phrases (PyStr.lower (PyStr.join PyStr.nl l))
  = existsb (fun p => existsb (fun x => PyStr.str_in p (PyStr.lower x)) l)
            phrases.
Proof.
  induction phrases as [|p phrases IH]; intros H; [reflexivity|].
  cbn [forallb] in H. apply andb_true_iff in H as [Hp Hrest].
  apply andb_true_iff in Hp as [Hfree Hne]. apply nonempty_iff in Hne.
  cbn [PyStr.any_in existsb]. rewrite (str_in_lines p l Hfree Hne), (IH Hrest).
  now destruct (existsb _ l).
Qed.

Lemma existsb_same_members {A} (f : A -> bool) (l l' : list A) :
  (forall x, In x l <-> In x l') -> existsb f l = existsb f l'.
Proof.
  intros H. apply eq_true_iff_eq. rewrite !existsb_exists.
  split; intros (x & Hx & Hf); exists x; split; auto; now apply H.
Qed.

(** X27. The verdict of the classifier depends only on which lines each
    buffer holds, not on their order nor on how often a line is there: two
    pairs of buffers with the same lines get the same verdict. *)
Theorem classify_error_by_lines (retrieval retrieval' encode encode'
  : list string) :
  (forall x, In x retrieval <-> In x retrieval') ->
  (forall x, In x encode <-> In x encode') ->
  _classify_error retrieval encode = _classify_error retrieval' encode'.
Proof.
  intros Hr He. unfold _classify_error.
  rewrite !any_in_lines by reflexivity.
  assert (R : forall phrases,
             existsb (fun p => existsb
                                 (fun x => PyStr.str_in p (PyStr.lower x))
                                 retrieval) phrases
             = existsb (fun p => existsb
                                   (fun x => PyStr.str_in p (PyStr.lower x))
                                   retrieval') phrases).
  { intros phrases. induction phrases as [|p ps IH]; [reflexivity|].
    cbn. now rewrite IH, (existsb_same_members _ _ _ Hr). }
  assert (E : forall phrases,
             existsb (fun p => existsb
                                 (fun x => PyStr.str_in p (PyStr.lower x))
                                 encode) phrases
             = existsb (fun p => existsb
                                   (fun x => PyStr.str_in p (PyStr.lower x))
                                   encode') phrases).
  { intros phrases. induction phrases as [|p ps IH]; [reflexivity|].
    cbn. now rewrite IH, (existsb_same_members _ _ _ He). }
  now rewrite !R, !E.
Qed.

Lemma classify_error_by_lines_witness :
  _classify_error ["ERROR: unable to download video data"; "retrying"]
                  ["Broken pipe"]
  = _classify_error ["retrying"; "ERROR: unable to download video data";
                     "retrying"]
                    ["Broken pipe"; "Broken pipe"].
Proof.
  apply (classify_error_by_lines
           ["ERROR: unable to download video data"; "retrying"]
           ["retrying"; "ERROR: unable to download video data"; "retrying"]
           ["Broken pipe"] ["Broken pipe"; "Broken pipe"]);
    intros x; cbn; tauto.
Defined.

(** X28. A run reports SUCCESS only when the shutdown flag was clear on
    entry, both children started and both exited with status 0. It starts
    yt-dlp first and ffmpeg only once yt-dlp has started, never anything
    else, and leaves no child tracked. *)
Theorem stream_video_success (W : World) (video : MatchVideo)
  (a a' : Application) (r : StreamResult) (t : list Event) :
  stream_video W video a = (Val r, a', t) ->
  let env := pipeline W (runs (cursor a)) in
  (r = SUCCESS ->
   _interrupted (_streamer a) = false /\
   ytdlp_starts env = true /\ ffmpeg_starts env = true /\
   ytdlp_rc env = 0 /\ ffmpeg_rc env = 0) /\
  (popens t = [] \/ popens t = [Ytdlp] \/ popens t = [Ytdlp; Ffmpeg]) /\
  (In (EvPopen Ffmpeg true) t \/ In (EvPopen Ffmpeg false) t ->
   In (EvPopen Ytdlp true) t) /\
  (_current_procs (_streamer a) = [] -> _current_procs (_streamer a') = []).
Proof.
  pose proof (classify_error_range (ytdlp_stderr_text
                                      (pipeline W (runs (cursor a))))
                (ffmpeg_stderr_lines (pipeline W (runs (cursor a))))) as Hc.
  cbv zeta in *. unfold stream_video, deliver.
  destruct (_interrupted (_streamer a)) eqn:I;
    [|destruct (ytdlp_starts _) eqn:Y; destruct (ffmpeg_starts _) eqn:F;
      cbn [andb];
      destruct (Signal_eqb _ SigDuring); cbn; rewrite ?I;
      try (destruct (ytdlp_rc _ =? 0) eqn:RY;
           destruct (ffmpeg_rc _ =? 0) eqn:RF; cbn [andb]);
      try destruct (Signal_eqb _ SigLate)];
    intros [= <- <- <-]; rewrite ?Z.eqb_eq in *;
    repeat split; cbn in *; auto; try discriminate; try congruence;
    intuition (auto; congruence).
Qed.

Lemma stream_video_success_witness :
  ytdlp_rc (pipeline (world_of run_ok) 0) = 0 /\
  ffmpeg_rc (pipeline (world_of run_ok) 0) = 0.
Proof.
  destruct (proj1 (stream_video_success (world_of run_ok) qm1 (idle_app 0)
                     _ SUCCESS _ eq_refl) eq_refl)
    as (_ & _ & _ & H1 & H2).
  split; assumption.
Defined.
